(** * Ultra Tensor Server: layer placement and transfer queue

    A shallow embedding of [scripts/tensor-server.py]: the layer metadata
    record and its location update, the transfer request with its ordering
    and status update, the bounded priority queue the transfer endpoint
    pushes to (Python's [queue.PriorityQueue] over [heapq]), the transfer
    endpoint itself, and the accelerator block of hardware detection.  The
    file has no code that takes a request off the queue and executes it;
    the one definition that stands for that worker, [execute_transfer],
    follows the specification and says so.

    Conventions.  A Python [int] is a [Z]; a [str] is a [string]; an
    [Optional[_]] is an [option]; a [dict] is a [gmap]; a [list] used as an
    array is a [list] read with [!!] and written with [<[_:=_]>].  A reading
    of [time.time()] is a [Z] (clock ticks): the program only compares
    readings.  Python floats that take part in arithmetic are IEEE doubles
    ([PrimFloat.float]).  A [with lock:] block runs its body in one step. *)

From Stdlib Require Import ZArith Floats ZifyNat.
From stdpp Require Import gmap strings list pretty sorting.
From Equations Require Import Equations.

Local Open Scope string_scope.
Local Open Scope Z_scope.
Local Open Scope list_scope.

(** [lia] reads [/] and [mod] by constants. *)
Ltac Zify.zify_post_hook ::= Z.div_mod_to_equations.

(** ** Python values and exceptions *)

Inductive PyExc :=
| OverflowError
| ValueError
| ZeroDivisionError.

(** A computation that returns a value or raises. *)
Inductive Raise (A : Type) :=
| Ok (a : A)
| Exc (e : PyExc).
Arguments Ok {A} a.
Arguments Exc {A} e.

#[global] Instance Raise_ret : MRet Raise := λ A a, Ok a.
#[global] Instance Raise_bind : MBind Raise := λ A B k m,
  match m with
  | Ok a => k a
  | Exc e => Exc e
  end.

(** A JSON / Python number: [int] or [float]. *)
Inductive PyNum :=
| PyInt (z : Z)
| PyFloat (f : float).

(** [float(z)]: the nearest double, ties to even; [OverflowError] when the
    integer is too large for a double. *)
Definition float_of_int (z : Z) : Raise float :=
  let f := SF2Prim (SpecFloat.binary_normalize prec emax z 0 false) in
  if PrimFloat.is_infinity f then Exc OverflowError else Ok f.

(** [int(f)]: truncation toward zero. *)
Definition int_of_float (f : float) : Raise Z :=
  match Prim2SF f with
  | SpecFloat.S754_zero _ => Ok 0
  | SpecFloat.S754_finite s m e =>
      let v := if (0 <=? e)%Z then Z.pos m * 2 ^ e else Z.pos m / 2 ^ (- e) in
      Ok (if s then - v else v)
  | SpecFloat.S754_infinity _ => Exc OverflowError
  | SpecFloat.S754_nan => Exc ValueError
  end.

Definition py_to_float (a : PyNum) : Raise float :=
  match a with
  | PyInt z => float_of_int z
  | PyFloat f => Ok f
  end.

(** [a * b] *)
Definition py_mul (a b : PyNum) : Raise PyNum :=
  match a, b with
  | PyInt x, PyInt y => Ok (PyInt (x * y))
  | _, _ =>
      x ← py_to_float a ; y ← py_to_float b ; Ok (PyFloat (PrimFloat.mul x y))
  end.

(** [a - b] *)
Definition py_sub (a b : PyNum) : Raise PyNum :=
  match a, b with
  | PyInt x, PyInt y => Ok (PyInt (x - y))
  | _, _ =>
      x ← py_to_float a ; y ← py_to_float b ; Ok (PyFloat (PrimFloat.sub x y))
  end.

(** [a / d] for a float divisor [d]. *)
Definition py_truediv_float (a : PyNum) (d : float) : Raise float :=
  x ← py_to_float a ;
  if PrimFloat.eqb d PrimFloat.zero then Exc ZeroDivisionError
  else Ok (PrimFloat.div x d).

(** [int(a)] *)
Definition py_int (a : PyNum) : Raise Z :=
  match a with
  | PyInt z => Ok z
  | PyFloat f => int_of_float f
  end.

(** [str(i)] of a non-negative [int]. *)
Definition py_str (i : nat) : string := pretty i.

(** Truth value of an [Optional[str]]: [None] and [""] are false. *)
Definition truthy (s : option string) : bool :=
  match s with
  | Some s => negb (String.eqb s "")
  | None => false
  end.

(** ** Core data structures *)

Module LayerMetadata.

Record t := mk {
  id : Z;
  name : string;
  original_size_bytes : Z;
  current_size_bytes : Z;
  shape : list Z;
  original_dtype : string;
  current_dtype : string;
  current_device : string;
  gpu_id : option Z;
  compression_type : option string;
  quantization_type : option string;
  quantization_params : gmap string string;
  nvme_path : option string;
  ramdisk_path : option string;
  access_count : Z;
  last_access_timestamp : Z;
  loaded_in_memory : bool;
  nvme_stripes : list (gmap string string);
  is_on_nvme_stripped : bool
}.

(** [current_device not in ["nvme"]] *)
Definition not_in_nvme (device : string) : bool :=
  negb (bool_decide (device ∈ ["nvme"])).

(** [LayerMetadata.__init__]; the second component is [layer_locks] after
    the constructor has made sure the layer has a lock. *)
Definition __init__ (layer_id : Z) (name : string) (original_size_bytes : Z)
    (shape : list Z) (dtype : string) (current_device : string)
    (gpu_id : option Z) (compression_type quantization_type : option string)
    (nvme_path ramdisk_path : option string)
    (quantization_params : option (gmap string string))
    (is_on_nvme_stripped : bool) (layer_locks : gset Z) : t * gset Z :=
  ({| id := layer_id;
      name := name;
      original_size_bytes := original_size_bytes;
      current_size_bytes := original_size_bytes;
      shape := shape;
      original_dtype := dtype;
      current_dtype := dtype;
      current_device := current_device;
      gpu_id := if String.eqb current_device "gpu" then gpu_id else None;
      compression_type := compression_type;
      quantization_type := quantization_type;
      quantization_params :=
        match quantization_params with
        | Some d => d
        | None => ∅
        end;
      nvme_path := nvme_path;
      ramdisk_path := ramdisk_path;
      access_count := 0;
      last_access_timestamp := 0;
      loaded_in_memory := not_in_nvme current_device;
      nvme_stripes := [];
      is_on_nvme_stripped := is_on_nvme_stripped |},
   if bool_decide (layer_id ∈ layer_locks) then layer_locks
   else {[layer_id]} ∪ layer_locks).

(** [LayerMetadata.set_location] *)
Definition set_location (self : t) (device_type_str : string)
    (path_val : option string) (gpu_id_val : option Z) : t :=
  {| id := id self;
     name := name self;
     original_size_bytes := original_size_bytes self;
     current_size_bytes := current_size_bytes self;
     shape := shape self;
     original_dtype := original_dtype self;
     current_dtype := current_dtype self;
     current_device := device_type_str;
     gpu_id := if String.eqb device_type_str "gpu" then gpu_id_val else None;
     compression_type := compression_type self;
     quantization_type := quantization_type self;
     quantization_params := quantization_params self;
     nvme_path :=
       if String.eqb device_type_str "nvme" then path_val else None;
     ramdisk_path :=
       if String.eqb device_type_str "nvme" then None
       else if String.eqb device_type_str "ramdisk" then path_val
       else None;
     access_count := access_count self;
     last_access_timestamp := last_access_timestamp self;
     loaded_in_memory := not_in_nvme device_type_str;
     nvme_stripes := nvme_stripes self;
     is_on_nvme_stripped := is_on_nvme_stripped self |}.

(** The entry [update_access_stats] stores in [layer_access_stats]. *)
Record AccessStat := {
  count : Z;
  last_access : Z;
  stat_name : string
}.

(** [LayerMetadata.update_access_stats]; [now] is the reading of
    [time.time()]. *)
Definition update_access_stats (self : t) (now : Z)
    (layer_access_stats : gmap Z AccessStat) : t * gmap Z AccessStat :=
  let self' :=
    {| id := id self;
       name := name self;
       original_size_bytes := original_size_bytes self;
       current_size_bytes := current_size_bytes self;
       shape := shape self;
       original_dtype := original_dtype self;
       current_dtype := current_dtype self;
       current_device := current_device self;
       gpu_id := gpu_id self;
       compression_type := compression_type self;
       quantization_type := quantization_type self;
       quantization_params := quantization_params self;
       nvme_path := nvme_path self;
       ramdisk_path := ramdisk_path self;
       access_count := access_count self + 1;
       last_access_timestamp := now;
       loaded_in_memory := loaded_in_memory self;
       nvme_stripes := nvme_stripes self;
       is_on_nvme_stripped := is_on_nvme_stripped self |} in
  (self',
   <[id self := {| count := access_count self';
                   last_access := last_access_timestamp self';
                   stat_name := name self' |}]> layer_access_stats).

(** The methods that mutate a layer's metadata. *)
Inductive call :=
| SetLocation (device_type_str : string) (path_val : option string)
    (gpu_id_val : option Z)
| UpdateAccessStats (now : Z).

Definition step (stats : gmap Z AccessStat) (self : t) (c : call) : t :=
  match c with
  | SetLocation d p g => set_location self d p g
  | UpdateAccessStats now => fst (update_access_stats self now stats)
  end.

(** The location fields agree with the tier: an accelerator id only on
    "gpu", an NVMe path only on "nvme", a RAM-disk path only on "ramdisk". *)
Definition location_consistent (m : t) : Prop :=
  (is_Some (gpu_id m) → current_device m = "gpu") ∧
  (is_Some (nvme_path m) → current_device m = "nvme") ∧
  (is_Some (ramdisk_path m) → current_device m = "ramdisk").

End LayerMetadata.

Module TransferRequest.

Record t := mk {
  layer_id : Z;
  source_device : string;
  destination_device : string;
  priority : Z;
  timestamp : Z;
  data_to_transfer : option (list Z);
  callback : option string;
  status : string;
  error_message : option string
}.

(** One invocation [callback(self, success, error_message)]: the request as
    the callback sees it and the two other arguments.  The callable is
    opaque to the server; an exception it raises is logged and dropped. *)
Definition CallbackCall : Type := t * bool * option string.

(** [TransferRequest.__init__]; [now] is the reading of [time.time()]. *)
Definition __init__ (layer_id : Z) (source_device_str destination_device_str : string)
    (priority : Z) (data_to_transfer_optional : option (list Z))
    (completion_callback_optional : option string) (now : Z) : t :=
  {| layer_id := layer_id;
     source_device := source_device_str;
     destination_device := destination_device_str;
     priority := priority;
     timestamp := now;
     data_to_transfer := data_to_transfer_optional;
     callback := completion_callback_optional;
     status := "pending";
     error_message := None |}.

(** [TransferRequest.__lt__] *)
Definition __lt__ (self other_request : t) : bool :=
  if (priority self =? priority other_request)%Z
  then (timestamp self <? timestamp other_request)%Z
  else (priority self <? priority other_request)%Z.

(** [new_status_str in ["completed", "failed"]] *)
Definition is_terminal (new_status_str : string) : bool :=
  bool_decide (new_status_str ∈ ["completed"; "failed"]).

(** [TransferRequest.update_status]: the updated request and the callback
    invocations the call made. *)
Definition update_status (self : t) (new_status_str : string)
    (error_msg_str : option string) : t * list CallbackCall :=
  let self' :=
    {| layer_id := layer_id self;
       source_device := source_device self;
       destination_device := destination_device self;
       priority := priority self;
       timestamp := timestamp self;
       data_to_transfer := data_to_transfer self;
       callback := callback self;
       status := new_status_str;
       error_message :=
         if truthy error_msg_str then error_msg_str else error_message self |} in
  (self',
   if is_terminal new_status_str && bool_decide (is_Some (callback self'))
   then [(self', String.eqb new_status_str "completed", error_message self')]
   else []).

(** A sequence of [update_status] calls on one request, with all the
    callback invocations in order. *)
Fixpoint update_status_seq (self : t) (calls : list (string * option string))
    : t * list CallbackCall :=
  match calls with
  | [] => (self, [])
  | (s, e) :: rest =>
      let '(self', fired) := update_status self s e in
      let '(self'', fired') := update_status_seq self' rest in
      (self'', fired ++ fired')
  end.

End TransferRequest.

(** ** Python's [heapq] and [queue.PriorityQueue]

    The transfer queue is a [queue.PriorityQueue]: a list kept as a binary
    heap by [heapq.heappush] and [heapq.heappop], compared with the items'
    [__lt__].  A read [heap[i]] outside the list raises [IndexError] in
    Python; the loops below never make one, and the model leaves the heap as
    it is there.  The functions embedded, from the standard library:
<<
    def heappush(heap, item):
        heap.append(item)
        _siftdown(heap, 0, len(heap)-1)

    def heappop(heap):
        lastelt = heap.pop()
        if heap:
            returnitem = heap[0]
            heap[0] = lastelt
            _siftup(heap, 0)
            return returnitem
        return lastelt

    def _siftdown(heap, startpos, pos):
        newitem = heap[pos]
        while pos > startpos:
            parentpos = (pos - 1) >> 1
            parent = heap[parentpos]
            if newitem < parent:
                heap[pos] = parent
                pos = parentpos
                continue
            break
        heap[pos] = newitem

    def _siftup(heap, pos):
        endpos = len(heap)
        startpos = pos
        newitem = heap[pos]
        childpos = 2*pos + 1
        while childpos < endpos:
            rightpos = childpos + 1
            if rightpos < endpos and not heap[childpos] < heap[rightpos]:
                childpos = rightpos
            heap[pos] = heap[childpos]
            pos = childpos
            childpos = 2*pos + 1
        heap[pos] = newitem
        _siftdown(heap, startpos, pos)
>>
    [PriorityQueue.put_nowait] raises [Full] when [maxsize > 0] and the
    queue holds [maxsize] items, and calls [heappush] otherwise;
    [get_nowait] raises [Empty] on an empty queue and calls [heappop]
    otherwise. *)

Section heapq.
Context {A : Type} (lt : A → A → bool).

(** The [while pos > startpos] loop of [heapq._siftdown]. *)
Equations? siftdown_loop (newitem : A) (startpos : nat) (heap : list A)
    (pos : nat) : list A * nat by wf pos Nat.lt :=
  siftdown_loop newitem startpos heap pos with decide (startpos < pos)%nat => {
    | right _ := (heap, pos);
    | left _ with heap !! ((pos - 1) / 2)%nat => {
        | None := (heap, pos);
        | Some parent :=
            if lt newitem parent
            then siftdown_loop newitem startpos (<[pos := parent]> heap)
                   ((pos - 1) / 2)%nat
            else (heap, pos) } }.
Proof. change ((pos - 1) / 2 < pos)%nat. lia. Qed.

(** [heapq._siftdown(heap, startpos, pos)] *)
Definition _siftdown (heap : list A) (startpos pos : nat) : list A :=
  match heap !! pos with
  | None => heap
  | Some newitem =>
      let '(heap', pos') := siftdown_loop newitem startpos heap pos in
      <[pos' := newitem]> heap'
  end.

(** The child [heapq._siftup] moves up: the right one when it exists and
    the left one is not smaller. *)
Definition smaller_child (endpos : nat) (heap : list A) (pos : nat) : nat :=
  let childpos := (2 * pos + 1)%nat in
  let rightpos := (childpos + 1)%nat in
  match heap !! childpos, heap !! rightpos with
  | Some c, Some r =>
      if bool_decide (rightpos < endpos)%nat && negb (lt c r)
      then rightpos else childpos
  | _, _ => childpos
  end.

(** The [while childpos < endpos] loop of [heapq._siftup]. *)
Equations? siftup_loop (endpos : nat) (heap : list A) (pos : nat)
    : list A * nat by wf (endpos - pos)%nat Nat.lt :=
  siftup_loop endpos heap pos with decide (2 * pos + 1 < endpos)%nat => {
    | right _ := (heap, pos);
    | left _ with heap !! smaller_child endpos heap pos => {
        | None := (heap, pos);
        | Some child :=
            siftup_loop endpos (<[pos := child]> heap)
              (smaller_child endpos heap pos) } }.
Proof.
  unfold smaller_child, Nat.lt.
  repeat case_match; lia.
Qed.

(** [heapq._siftup(heap, pos)] *)
Definition _siftup (heap : list A) (pos : nat) : list A :=
  match heap !! pos with
  | None => heap
  | Some newitem =>
      let '(heap', pos') := siftup_loop (length heap) heap pos in
      _siftdown (<[pos' := newitem]> heap') pos pos'
  end.

(** [heapq.heappush(heap, item)] *)
Definition heappush (heap : list A) (item : A) : list A :=
  _siftdown (heap ++ [item]) 0 (length heap).

(** [heapq.heappop(heap)]: the item and the heap left; [None] stands for
    the [IndexError] of popping an empty list. *)
Definition heappop (heap : list A) : option (A * list A) :=
  match last heap with
  | None => None
  | Some lastelt =>
      match removelast heap with
      | [] => Some (lastelt, [])
      | returnitem :: rest =>
          Some (returnitem, _siftup (lastelt :: rest) 0)
      end
  end.

(** [PriorityQueue.put_nowait]: [None] stands for [queue.Full]. *)
Definition put_nowait (maxsize : nat) (queue : list A) (item : A)
    : option (list A) :=
  if bool_decide (0 < maxsize)%nat && bool_decide (maxsize ≤ length queue)%nat
  then None
  else Some (heappush queue item).

(** [PriorityQueue.get_nowait]: [None] stands for [queue.Empty]. *)
Definition get_nowait (queue : list A) : option (A * list A) :=
  match queue with
  | [] => None
  | _ => heappop queue
  end.

(** Pushing a list of items one after the other. *)
Definition push_all (heap : list A) (items : list A) : list A :=
  foldl heappush heap items.

(** Popping until the heap is empty; [fuel] bounds the number of pops. *)
Fixpoint drain (fuel : nat) (heap : list A) : list A :=
  match fuel with
  | O => []
  | S fuel' =>
      match heappop heap with
      | None => []
      | Some (x, heap') => x :: drain fuel' heap'
      end
  end.

End heapq.

(** ** Global state *)

(** One entry of [hardware_summary["gpu"]["devices"]]. *)
Record GpuDevice := {
  dev_id : nat;
  dev_name : string;
  total_memory_bytes : Z;
  usable_memory_bytes_planning : Z;
  compute_capability : string
}.

(** [hardware_summary["gpu"]]; the total is absent until detection ran. *)
Record GpuSummary := {
  gpu_available : bool;
  gpu_count : nat;
  devices : list GpuDevice;
  total_usable_vram_bytes_planning : option Z
}.

(** [hardware_summary["ram"]], [["nvme"]] and [["ramdisk"]]: the keys that
    carry availability and the planning budget; a budget key is absent while
    the tier is unavailable. *)
Record RamSummary := {
  usable_bytes_for_planning : option Z
}.

Record NvmeSummary := {
  nvme_available : bool;
  nvme_summary_path : option string;
  server_usable_bytes_limit : option Z
}.

Record RamdiskSummary := {
  ramdisk_available : bool;
  ramdisk_summary_path : option string;
  usable_bytes_for_server : option Z
}.

Record HardwareSummary := {
  gpu : GpuSummary;
  ram : RamSummary;
  nvme : NvmeSummary;
  ramdisk : RamdiskSummary
}.

(** The module-level value of [hardware_summary]. *)
Definition hardware_summary_initial : HardwareSummary :=
  {| gpu := {| gpu_available := false; gpu_count := 0; devices := [];
               total_usable_vram_bytes_planning := None |};
     ram := {| usable_bytes_for_planning := None |};
     nvme := {| nvme_available := false; nvme_summary_path := None;
                server_usable_bytes_limit := None |};
     ramdisk := {| ramdisk_available := false; ramdisk_summary_path := None;
                   usable_bytes_for_server := None |} |}.

(** [layer_transfer_queue = queue.PriorityQueue(maxsize=200)] *)
Definition layer_transfer_queue_maxsize : nat := 200.

(** The module's global registries and the transfer queue. *)
Record Globals := {
  hardware_summary : HardwareSummary;
  layer_metadata_registry : gmap Z LayerMetadata.t;
  layer_access_stats : gmap Z LayerMetadata.AccessStat;
  layer_locks : gset Z;
  layer_transfer_queue : list TransferRequest.t
}.

Definition set_layer_transfer_queue (q : list TransferRequest.t) (g : Globals)
    : Globals :=
  {| hardware_summary := hardware_summary g;
     layer_metadata_registry := layer_metadata_registry g;
     layer_access_stats := layer_access_stats g;
     layer_locks := layer_locks g;
     layer_transfer_queue := q |}.

Definition set_hardware_summary (hw : HardwareSummary) (g : Globals) : Globals :=
  {| hardware_summary := hw;
     layer_metadata_registry := layer_metadata_registry g;
     layer_access_stats := layer_access_stats g;
     layer_locks := layer_locks g;
     layer_transfer_queue := layer_transfer_queue g |}.

Definition set_layer_metadata_registry (r : gmap Z LayerMetadata.t) (g : Globals)
    : Globals :=
  {| hardware_summary := hardware_summary g;
     layer_metadata_registry := r;
     layer_access_stats := layer_access_stats g;
     layer_locks := layer_locks g;
     layer_transfer_queue := layer_transfer_queue g |}.

(** ** The transfer endpoint *)

(** The request body [TransferRequestAPI].  The framework validates it
    before the handler runs ([priority] defaults to 5 and lies between 1 and
    10); the handler passes the priority on as it is. *)
Record TransferRequestAPI := {
  req_layer_id : Z;
  req_destination_device : string;
  req_priority : Z
}.

(** What the endpoint answers: the 202 body, or the [HTTPException] it
    raises. *)
Inductive Response :=
| Queued (message : string) (layer_id : Z) (destination : string)
| HTTPException (status_code : Z) (detail : string).

Definition valid_prefixes : list string := ["cpu"; "gpu"; "ramdisk"; "nvme"].

(** [any(destination_device.startswith(p) for p in valid_prefixes)] *)
Definition has_valid_prefix (destination_device : string) : bool :=
  existsb (λ p, String.prefix p destination_device) valid_prefixes.

(** [api_transfer_layer]; [now] is the reading of [time.time()] taken by
    the [TransferRequest] constructor. *)
Definition api_transfer_layer (req_api : TransferRequestAPI) (now : Z)
    (g : Globals) : Response * Globals :=
  match layer_metadata_registry g !! req_layer_id req_api with
  | None =>
      (HTTPException 404
         ("Layer ID " +:+ pretty (req_layer_id req_api) +:+ " not found."), g)
  | Some meta =>
      if negb (has_valid_prefix (req_destination_device req_api))
      then (HTTPException 400 "Invalid destination_device format.", g)
      else
        let transfer_obj :=
          TransferRequest.__init__ (LayerMetadata.id meta)
            (LayerMetadata.current_device meta)
            (req_destination_device req_api) (req_priority req_api)
            None None now in
        match put_nowait TransferRequest.__lt__ layer_transfer_queue_maxsize
                (layer_transfer_queue g) transfer_obj with
        | None => (HTTPException 503 "Layer transfer queue full.", g)
        | Some q =>
            (Queued "Transfer request queued." (LayerMetadata.id meta)
               (req_destination_device req_api),
             set_layer_transfer_queue q g)
        end
  end.

(** ** Hardware detection: the accelerator block *)

(** [hardware.gpu] of the configuration file. *)
Record GpuCfg := {
  reserved_vram_mb_per_gpu : option (gmap string PyNum);
  reserved_vram_mb_default : option PyNum;
  max_utilization_percent_per_gpu : option (gmap string PyNum);
  max_utilization_percent_default : option PyNum
}.

(** What [torch.cuda.get_device_properties(i)] returns. *)
Record DeviceProperties := {
  props_name : string;
  total_memory : Z;
  major : Z;
  minor : Z
}.

(** [d.get(k1, {}).get(str(i), d.get(k2, dflt))] *)
Definition cfg_per_gpu (per_gpu : option (gmap string PyNum))
    (default_val : option PyNum) (dflt : PyNum) (i : nat) : PyNum :=
  default (default dflt default_val) (default ∅ per_gpu !! py_str i).

Definition reserved_vram_mb (gpu_cfg : GpuCfg) (i : nat) : PyNum :=
  cfg_per_gpu (reserved_vram_mb_per_gpu gpu_cfg)
    (reserved_vram_mb_default gpu_cfg) (PyInt 256) i.

Definition max_util_pct (gpu_cfg : GpuCfg) (i : nat) : PyNum :=
  cfg_per_gpu (max_utilization_percent_per_gpu gpu_cfg)
    (max_utilization_percent_default gpu_cfg) (PyInt 90) i.

(** [max(0, int((total_memory - (reserved_vram_mb * 1024*1024)) *
    (max_util_pct / 100.0)))] *)
Definition usable_vram_for_gpu_b (total_memory : Z)
    (reserved_vram_mb max_util_pct : PyNum) : Raise Z :=
  r1 ← py_mul reserved_vram_mb (PyInt 1024);
  r ← py_mul r1 (PyInt 1024);
  d ← py_sub (PyInt total_memory) r;
  f ← py_truediv_float max_util_pct 100%float;
  p ← py_mul d (PyFloat f);
  v ← py_int p;
  Ok (Z.max 0 v).

Definition device_entry (i : nat) (props : DeviceProperties) (usable : Z)
    : GpuDevice :=
  {| dev_id := i;
     dev_name := props_name props;
     total_memory_bytes := total_memory props;
     usable_memory_bytes_planning := usable;
     compute_capability := pretty (major props) +:+ "." +:+ pretty (minor props) |}.

(** The body of [for i in range(count)], over the device list and the
    running total. *)
Fixpoint gpu_loop (gpu_cfg : GpuCfg) (get_device_properties : nat → DeviceProperties)
    (range : list nat) (devs : list GpuDevice) (total_usable_vram_b : Z)
    : Raise (list GpuDevice * Z) :=
  match range with
  | [] => Ok (devs, total_usable_vram_b)
  | i :: range' =>
      let props := get_device_properties i in
      usable_vram_for_gpu_b ←
        usable_vram_for_gpu_b (total_memory props) (reserved_vram_mb gpu_cfg i)
          (max_util_pct gpu_cfg i);
      gpu_loop gpu_cfg get_device_properties range'
        (devs ++ [device_entry i props usable_vram_for_gpu_b])
        (total_usable_vram_b + usable_vram_for_gpu_b)
  end.

(** The GPU block of [HardwareManager.detect_all_hardware]: the new
    [hardware_summary["gpu"]], from the configuration and the probes
    [torch.cuda.is_available()], [torch.cuda.device_count()] and
    [torch.cuda.get_device_properties]. *)
Definition detect_all_hardware_gpu (gpu_cfg : GpuCfg) (cuda_is_available : bool)
    (cuda_device_count : nat) (get_device_properties : nat → DeviceProperties)
    (old : GpuSummary) : Raise GpuSummary :=
  let count := if cuda_is_available then cuda_device_count else 0%nat in
  '(devs, total_usable_vram_b) ←
    (if cuda_is_available
     then gpu_loop gpu_cfg get_device_properties (seq 0 count) (devices old) 0
     else Ok (devices old, 0));
  Ok {| gpu_available := cuda_is_available;
        gpu_count := count;
        devices := devs;
        total_usable_vram_bytes_planning := Some total_usable_vram_b |}.

(** ** Capacity accounting *)

(** The bytes the layers on one tier take: the sum of [current_size_bytes]
    over the registered layers whose [current_device] is the tier. *)
Definition tier_used_bytes (registry : gmap Z LayerMetadata.t) (tier : string) : Z :=
  map_fold
    (λ _ m acc,
       if String.eqb (LayerMetadata.current_device m) tier
       then acc + LayerMetadata.current_size_bytes m else acc)
    0 registry.

(** The capacity budget of a tier as the specification words it, with the
    utilization ceiling in percent. *)
Record CapacityBudget := {
  total_capacity_bytes : Z;
  reserved_bytes : Z;
  max_utilization_percent : Z
}.

(** [used + reserved ≤ total * max_utilization] *)
Definition within_budget (b : CapacityBudget) (used : Z) : Prop :=
  (used + reserved_bytes b) * 100 ≤ total_capacity_bytes b * max_utilization_percent b.

(** Whether [hardware_summary] marks the tier a destination names as
    available; host memory ("cpu") has no such flag. *)
Definition destination_available (hw : HardwareSummary) (destination_device : string)
    : bool :=
  if String.prefix "gpu" destination_device then gpu_available (gpu hw)
  else if String.prefix "ramdisk" destination_device then ramdisk_available (ramdisk hw)
  else if String.prefix "nvme" destination_device then nvme_available (nvme hw)
  else true.

(** The request the endpoint builds for a layer. *)
Definition transfer_obj_of (meta : LayerMetadata.t) (req_api : TransferRequestAPI)
    (now : Z) : TransferRequest.t :=
  TransferRequest.__init__ (LayerMetadata.id meta) (LayerMetadata.current_device meta)
    (req_destination_device req_api) (req_priority req_api) None None now.

(** ** Executing a transfer *)

#[local] Instance within_budget_dec b used : Decision (within_budget b used).
Proof. unfold within_budget. apply _. Defined.

(** What the destination tier's store answers to a write: the place the
    layer now is at, or an I/O error with its cause. *)
Inductive WriteOutcome :=
| Written (path : option string) (accelerator : option Z)
| IOError (cause : string).

(** The text of the error [IOFailure(tier, cause)]. *)
Definition io_failure (tier cause : string) : string :=
  "IOFailure(" +:+ tier +:+ ", " +:+ cause +:+ ")".

(** Modelled from the spec: the worker's handling of one dequeued request
    (section 4.3, "Dequeue/execution loop", "Execution" and "Idempotence").
    The source has the queue, [TransferRequest.update_status] and
    [LayerMetadata.set_location], which this definition calls, but no
    function that takes a request off the queue and runs it.  The worker
    marks the request in progress; fails it for an unknown layer; completes
    it at once when the layer already is on the destination; fails it with
    a capacity error when the destination's budget has no room for the
    layer; and otherwise writes to the destination's store, on success
    updating the location and completing the request, on an I/O error
    leaving the registry alone and failing the request with the wrapped
    error.  It returns the request, the callback invocations and the
    globals. *)
Definition execute_transfer (budget : string → CapacityBudget) (write : WriteOutcome)
    (req : TransferRequest.t) (g : Globals)
    : TransferRequest.t * list TransferRequest.CallbackCall * Globals :=
  let '(req1, fired1) := TransferRequest.update_status req "in_progress" None in
  let finish status error g' :=
    let '(req2, fired2) := TransferRequest.update_status req1 status error in
    (req2, fired1 ++ fired2, g') in
  let dest := TransferRequest.destination_device req in
  match layer_metadata_registry g !! TransferRequest.layer_id req with
  | None => finish "failed" (Some "UnknownLayer") g
  | Some meta =>
      if String.eqb (LayerMetadata.current_device meta) dest
      then finish "completed" None g
      else if negb (bool_decide
                      (within_budget (budget dest)
                         (tier_used_bytes (layer_metadata_registry g) dest +
                          LayerMetadata.current_size_bytes meta)))
      then finish "failed" (Some "CapacityExceeded") g
      else
        match write with
        | IOError cause => finish "failed" (Some (io_failure dest cause)) g
        | Written path accelerator =>
            finish "completed" None
              (set_layer_metadata_registry
                 (<[TransferRequest.layer_id req :=
                      LayerMetadata.set_location meta dest path accelerator]>
                    (layer_metadata_registry g)) g)
        end
  end.

(** ** Notions the properties are stated with *)

(** The flag says whether the layer's device is something else than NVMe. *)
Definition loaded_flag_consistent (m : LayerMetadata.t) : Prop :=
  LayerMetadata.loaded_in_memory m = true ↔ LayerMetadata.current_device m ≠ "nvme".



Section heap_order.
Context {A : Type} (lt : A → A → bool).
Local Open Scope nat_scope.

(** The item at [i] is not smaller than its parent's. *)
Definition edge_ok (h : list A) (i : nat) : Prop :=
  ∀ x p, h !! i = Some x → h !! ((i - 1) / 2) = Some p → lt x p = false.

(** The heap invariant of [heapq]: [heap[(k-1)//2] <= heap[k]] for all
    [k > 0]. *)
Definition is_heap (h : list A) : Prop :=
  ∀ i, 0 < i → edge_ok h i.

(** The invariant with the item at [pos] still on its way up: every edge
    but the one into [pos] is in order, and the children of [pos] are not
    smaller than its parent. *)
Definition heap_but_up (h : list A) (pos : nat) : Prop :=
  (∀ i, 0 < i → i ≠ pos → edge_ok h i) ∧
  (0 < pos → ∀ c x p, (c - 1) / 2 = pos → 0 < c →
     h !! c = Some x → h !! ((pos - 1) / 2) = Some p → lt x p = false).

(** The invariant with a hole at [pos] on its way down: every edge that
    does not touch [pos] is in order, and the children of [pos] are not
    smaller than its parent. *)
Definition heap_but_down (h : list A) (pos : nat) : Prop :=
  (∀ i, 0 < i → i ≠ pos → (i - 1) / 2 ≠ pos → edge_ok h i) ∧
  (0 < pos → ∀ c x p, (c - 1) / 2 = pos → 0 < c →
     h !! c = Some x → h !! ((pos - 1) / 2) = Some p → lt x p = false).

End heap_order.

(** [a] compares below [b]: a smaller priority number, or the same one and
    an earlier timestamp. *)
Definition dequeues_first (a b : TransferRequest.t) : Prop :=
  TransferRequest.priority a < TransferRequest.priority b ∨
  (TransferRequest.priority a = TransferRequest.priority b ∧
   TransferRequest.timestamp a < TransferRequest.timestamp b).

(** The transfer queue after the requests [reqs] were put one after the
    other into the empty queue, and the order in which [get] then returns
    them. *)
Definition queue_of (reqs : list TransferRequest.t) : list TransferRequest.t :=
  push_all TransferRequest.__lt__ [] reqs.
Definition dequeue_all (reqs : list TransferRequest.t) : list TransferRequest.t :=
  drain TransferRequest.__lt__ (length reqs) (queue_of reqs).

(** A run of submissions, each with the clock reading its request gets. *)
Definition submit_all (subs : list (TransferRequestAPI * Z)) (g : Globals) : Globals :=
  foldl (λ g s, (api_transfer_layer s.1 s.2 g).2) g subs.

(** The request a submission puts on the queue, when its layer is
    registered. *)
Definition request_of (g : Globals) (s : TransferRequestAPI * Z)
    : option TransferRequest.t :=
  meta ← layer_metadata_registry g !! req_layer_id s.1;
  Some (transfer_obj_of meta s.1 s.2).

(** An operation on the transfer queue, and its effect: a [put_nowait]
    that finds the queue full and a [get_nowait] that finds it empty raise
    and leave it as it is. *)
Inductive queue_op :=
| Put (item : TransferRequest.t)
| Get.

Definition queue_step (q : list TransferRequest.t) (op : queue_op)
    : list TransferRequest.t :=
  match op with
  | Put item =>
      default q (put_nowait TransferRequest.__lt__ layer_transfer_queue_maxsize q item)
  | Get =>
      match get_nowait TransferRequest.__lt__ q with
      | Some (_, q') => q'
      | None => q
      end
  end.

(** The sum of a list of integers. *)
Definition sum_list_Z (xs : list Z) : Z := foldr Z.add 0 xs.

(** The per-device computation of the loop body. *)
Definition usable_of (gpu_cfg : GpuCfg) (get_device_properties : nat → DeviceProperties)
    (i : nat) : Raise Z :=
  usable_vram_for_gpu_b (total_memory (get_device_properties i))
    (reserved_vram_mb gpu_cfg i) (max_util_pct gpu_cfg i).

(** ** Example inputs *)


(** A 300 MiB layer in host memory, the one layer of the example
    registry. *)
Definition example_layer : LayerMetadata.t :=
  (LayerMetadata.__init__ 7 "model.layers.7" (300 * 2 ^ 20) [4096; 4096]
     "float16" "cpu" None None None None None None false ∅).1.

(** Globals with that registry, a given hardware summary and a given
    queue. *)
Definition example_globals (hw : HardwareSummary) (queue : list TransferRequest.t)
    : Globals :=
  {| hardware_summary := hw;
     layer_metadata_registry := {[ 7 := example_layer ]};
     layer_access_stats := ∅;
     layer_locks := {[ 7 ]};
     layer_transfer_queue := queue |}.

(** A hardware summary whose NVMe tier is available with a planning
    budget of 100 MiB. *)
Definition hw_small_nvme : HardwareSummary :=
  {| gpu := gpu hardware_summary_initial;
     ram := ram hardware_summary_initial;
     nvme := {| nvme_available := true;
                nvme_summary_path := Some "/tmp/tensor_storage/ultra_tensor_server_layers";
                server_usable_bytes_limit := Some (100 * 2 ^ 20) |};
     ramdisk := ramdisk hardware_summary_initial |}.

(** The budget of that NVMe tier: 100 MiB, nothing reserved, usable in
    full. *)
Definition nvme_budget : CapacityBudget :=
  {| total_capacity_bytes := 100 * 2 ^ 20;
     reserved_bytes := 0;
     max_utilization_percent := 100 |}.

(** A full queue: 200 pending requests for the example layer. *)
Definition full_queue : list TransferRequest.t :=
  replicate 200 (TransferRequest.__init__ 7 "cpu" "nvme" 5 None None 10).

(** ** Configuration values and their lookup *)

(** A value of the configuration file as [json.load] returns it. *)
#[warnings="-register-all"]
Inductive JSON :=
| JNull
| JBool (b : bool)
| JNum (n : PyNum)
| JStr (s : string)
| JList (l : list JSON)
| JDict (d : gmap string JSON).

(** The truth value of a configuration value. *)
Definition json_truthy (v : JSON) : bool :=
  match v with
  | JNull => false
  | JBool b => b
  | JNum (PyInt z) => negb (z =? 0)
  | JNum (PyFloat f) => negb (PrimFloat.eqb f PrimFloat.zero)
  | JStr s => negb (String.eqb s "")
  | JList l => negb (bool_decide (length l = 0%nat))
  | JDict d => negb (bool_decide (size d = 0%nat))
  end.

(** [node.get(key, default_val)]; [None] stands for the [AttributeError] of
    calling [get] on a value that is not a dict. *)
Definition dict_get (node : JSON) (key : string) (default_val : JSON) : option JSON :=
  match node with
  | JDict d => Some (default default_val (d !! key))
  | _ => None
  end.

(** [HardwareManager._cfg_path_get] on [self.app_config]. *)
Fixpoint _cfg_path_get (data_node : JSON) (keys_tuple : list string)
    (default_val : JSON) : JSON :=
  match keys_tuple with
  | [] => data_node
  | key_item :: keys =>
      match data_node with
      | JDict d =>
          match d !! key_item with
          | Some v => _cfg_path_get v keys default_val
          | None => default_val
          end
      | _ => default_val
      end
  end.

(** ** The API key check *)

(** What [verify_api_key_dependency_runtime] does: it returns [True],
    raises an [HTTPException], or fails with [AttributeError] on a
    configuration whose top level or ["api"] entry is not a dict. *)
Inductive AuthResult :=
| AuthTrue
| AuthHTTPException (status_code : Z) (detail : string)
| AuthAttributeError.

(** [api_key_provided != server_configured_api_key] for a provided string:
    a string equals no value but the same string. *)
Definition str_ne_json (s : string) (v : JSON) : bool :=
  match v with
  | JStr s' => negb (String.eqb s s')
  | _ => true
  end.

(** [verify_api_key_dependency_runtime] with the global [config]. *)
Definition verify_api_key_dependency_runtime (config : JSON)
    (api_key_provided : option string) : AuthResult :=
  match dict_get config "api" (JDict ∅) with
  | None => AuthAttributeError
  | Some api =>
      match dict_get api "api_key" JNull with
      | None => AuthAttributeError
      | Some server_configured_api_key =>
          if json_truthy server_configured_api_key
          then
            match api_key_provided with
            | Some provided =>
                if negb (truthy api_key_provided)
                then AuthHTTPException 401 "X-API-Key header is required."
                else if str_ne_json provided server_configured_api_key
                then AuthHTTPException 403 "Invalid API Key provided."
                else AuthTrue
            | None => AuthHTTPException 401 "X-API-Key header is required."
            end
          else AuthTrue
      end
  end.

(** ** Methods called on the registry's layers *)

(** [LayerMetadata.get_lock]: [None] stands for the [KeyError] of a layer
    without an entry in [layer_locks]. *)
Definition get_lock (self : LayerMetadata.t) (layer_locks : gset Z) : option Z :=
  if bool_decide (LayerMetadata.id self ∈ layer_locks)
  then Some (LayerMetadata.id self) else None.

(** [layer_metadata_registry[key].update_access_stats()]: the method takes
    the layer's lock first, so without one nothing is changed; [None]
    stands for the [KeyError] of a missing layer or lock. *)
Definition update_access_stats_in (key now : Z) (g : Globals) : option Globals :=
  self ← layer_metadata_registry g !! key;
  _ ← get_lock self (layer_locks g);
  let '(self', stats') :=
    LayerMetadata.update_access_stats self now (layer_access_stats g) in
  Some {| hardware_summary := hardware_summary g;
          layer_metadata_registry := <[key := self']> (layer_metadata_registry g);
          layer_access_stats := stats';
          layer_locks := layer_locks g;
          layer_transfer_queue := layer_transfer_queue g |}.

(** [layer_metadata_registry[key].set_location(...)], in the same way. *)
Definition set_location_in (key : Z) (device_type_str : string)
    (path_val : option string) (gpu_id_val : option Z) (g : Globals)
    : option Globals :=
  self ← layer_metadata_registry g !! key;
  _ ← get_lock self (layer_locks g);
  Some (set_layer_metadata_registry
          (<[key := LayerMetadata.set_location self device_type_str path_val
                      gpu_id_val]> (layer_metadata_registry g)) g).

(** A call the server makes on its globals, and a run of such calls; a
    call that raises leaves the globals as they are. *)
Inductive server_call :=
| CallUpdateAccessStats (key now : Z)
| CallSetLocation (key : Z) (device_type_str : string) (path_val : option string)
    (gpu_id_val : option Z)
| CallTransferLayer (req_api : TransferRequestAPI) (now : Z).

Definition server_step (g : Globals) (c : server_call) : Globals :=
  match c with
  | CallUpdateAccessStats key now => default g (update_access_stats_in key now g)
  | CallSetLocation key d p gid => default g (set_location_in key d p gid g)
  | CallTransferLayer req_api now => (api_transfer_layer req_api now g).2
  end.

(** The registry files every layer under its own id. *)
Definition registry_keyed (g : Globals) : Prop :=
  ∀ key m, layer_metadata_registry g !! key = Some m → LayerMetadata.id m = key.

(** Every entry of [layer_access_stats] repeats the counters and the name
    of the registered layer it is filed under. *)
Definition stats_agree (g : Globals) : Prop :=
  ∀ key st, layer_access_stats g !! key = Some st →
    ∃ m, layer_metadata_registry g !! key = Some m ∧
         LayerMetadata.count st = LayerMetadata.access_count m ∧
         LayerMetadata.last_access st = LayerMetadata.last_access_timestamp m ∧
         LayerMetadata.stat_name st = LayerMetadata.name m.

(** The three properties the server's calls keep, the last one against a
    fixed set of layer ids. *)
Definition registry_sound (dom0 : gset Z) (g : Globals) : Prop :=
  registry_keyed g ∧ stats_agree g ∧ dom (layer_metadata_registry g) = dom0.

(** The clock readings of the [update_access_stats] calls in a run of
    method calls. *)
Definition access_calls (calls : list LayerMetadata.call) : list Z :=
  omap (λ c, match c with
             | LayerMetadata.UpdateAccessStats now => Some now
             | _ => None
             end) calls.

(** ** Runs of submissions *)

(** A run of submissions with the answer to each. *)
Fixpoint submit_run (subs : list (TransferRequestAPI * Z)) (g : Globals)
    : list Response * Globals :=
  match subs with
  | [] => ([], g)
  | s :: rest =>
      let '(r, g1) := api_transfer_layer s.1 s.2 g in
      let '(rs, g2) := submit_run rest g1 in
      (r :: rs, g2)
  end.

(** Whether an answer is the 202 body. *)
Definition is_queued (r : Response) : bool :=
  match r with
  | Queued _ _ _ => true
  | HTTPException _ _ => false
  end.

(** What the endpoint leaves on the queue: a pending request without data,
    callback or error, for a registered layer, taken at the layer's device,
    toward a destination with a valid prefix. *)
Definition well_queued (g : Globals) (t : TransferRequest.t) : Prop :=
  TransferRequest.status t = "pending" ∧
  TransferRequest.error_message t = None ∧
  TransferRequest.callback t = None ∧
  TransferRequest.data_to_transfer t = None ∧
  has_valid_prefix (TransferRequest.destination_device t) = true ∧
  ∃ key meta, layer_metadata_registry g !! key = Some meta ∧
              TransferRequest.layer_id t = LayerMetadata.id meta ∧
              TransferRequest.source_device t = LayerMetadata.current_device meta.

(** The error messages of a run of [update_status] calls that
    [if error_msg_str:] lets through. *)
Definition errors_given (calls : list (string * option string))
    : list (option string) :=
  filter (λ e, truthy e = true) calls.*2.

(** Every registered layer has a lock. *)
Definition locks_cover (g : Globals) : Prop :=
  ∀ key m, layer_metadata_registry g !! key = Some m →
           LayerMetadata.id m ∈ layer_locks g.

(** What one call keeps: every registered layer has a lock, and the locks
    and the registered ids are the same as before. *)
Definition locks_sound (locks0 : gset Z) (dom0 : gset Z) (g : Globals) : Prop :=
  locks_cover g ∧ layer_locks g = locks0 ∧ dom (layer_metadata_registry g) = dom0.

(** ** The choice of the key check at startup *)

(** [config.get("api", {}).get("api_key")]; [None] stands for the
    [AttributeError]. *)
Definition server_configured_api_key (config : JSON) : option JSON :=
  api ← dict_get config "api" (JDict ∅);
  dict_get api "api_key" JNull.



(** ** The loaded model *)

Module LoadedModelContext.

(** The fields the methods below read.  [hf_config] stands for the
    configuration object by its [model_type] and [tokenizer] for the
    tokenizer by its [name_or_path]; the two fields of temporary inference
    state are left out. *)
Record t := mk {
  name : string;
  path : string;
  hf_config : option string;
  tokenizer : option string;
  layer_ids : list Z;
  compute_device : string;
  architecture : string;
  hf_token : option string;
  layer_execution_order : list Z
}.

(** [LoadedModelContext.__init__]; [sorted] on integers is the sorted
    rearrangement, here [merge_sort]. *)
Definition __init__ (model_name_or_id resolved_local_path : string)
    (hf_config_obj hf_tokenizer_obj : option string)
    (model_specific_layer_ids : list Z) (target_primary_compute_device : string)
    (hf_api_auth_token : option string) : t :=
  {| name := model_name_or_id;
     path := resolved_local_path;
     hf_config := hf_config_obj;
     tokenizer := hf_tokenizer_obj;
     layer_ids := model_specific_layer_ids;
     compute_device := target_primary_compute_device;
     architecture := default "unknown" hf_config_obj;
     hf_token := hf_api_auth_token;
     layer_execution_order := merge_sort Z.le model_specific_layer_ids |}.

(** [LoadedModelContext.get_layer_metadata] *)
Definition get_layer_metadata (self : t) (layer_id_val : Z)
    (layer_metadata_registry : gmap Z LayerMetadata.t) : option LayerMetadata.t :=
  if bool_decide (layer_id_val ∈ layer_ids self)
  then layer_metadata_registry !! layer_id_val
  else None.

(** [LoadedModelContext.get_num_layers] *)
Definition get_num_layers (self : t) : nat := length (layer_ids self).

End LoadedModelContext.

(** ** More example inputs *)

(** A configuration that sets the defaults and overrides the utilization
    of device 1, and a machine with two devices. *)
Definition example_gpu_cfg : GpuCfg :=
  {| reserved_vram_mb_per_gpu := None;
     reserved_vram_mb_default := Some (PyInt 256);
     max_utilization_percent_per_gpu := Some {[ "1" := PyInt 57 ]};
     max_utilization_percent_default := Some (PyInt 90) |}.

Definition example_props (i : nat) : DeviceProperties :=
  match i with
  | O => {| props_name := "GPU-A"; total_memory := 8 * 2 ^ 30; major := 8; minor := 6 |}
  | _ => {| props_name := "GPU-B"; total_memory := 256 * 2 ^ 20 + 100; major := 7;
            minor := 5 |}
  end.

(** Three submissions: one for the registered layer 7, one for a layer
    that is not registered, one with a destination of no known tier. *)
Definition example_submissions : list (TransferRequestAPI * Z) :=
  [ ({| req_layer_id := 7; req_destination_device := "gpu:0"; req_priority := 3 |}, 10);
    ({| req_layer_id := 8; req_destination_device := "cpu"; req_priority := 1 |}, 11);
    ({| req_layer_id := 7; req_destination_device := "tape"; req_priority := 1 |}, 12) ].

(** * Properties *)

(** ** Layer metadata *)

Section layer_metadata.
Import LayerMetadata.

Lemma not_in_nvme_spec (device : string) :
  not_in_nvme device = true ↔ device ≠ "nvme".
Proof.
  unfold not_in_nvme. rewrite negb_true_iff, bool_decide_eq_false.
  rewrite list_elem_of_singleton. done.
Qed.

Lemma init_loaded_flag layer_id nm size shp dt dev gid ct qt np rp qp strip locks :
  loaded_flag_consistent
    (__init__ layer_id nm size shp dt dev gid ct qt np rp qp strip locks).1.
Proof. apply not_in_nvme_spec. Qed.

Lemma set_location_loaded_flag m dev path gid :
  loaded_flag_consistent (set_location m dev path gid).
Proof. apply not_in_nvme_spec. Qed.

Lemma step_loaded_flag stats m c :
  loaded_flag_consistent m → loaded_flag_consistent (step stats m c).
Proof.
  destruct c as [dev path gid | now]; simpl; intros Hm.
  - apply set_location_loaded_flag.
  - exact Hm.
Qed.

Lemma steps_loaded_flag stats calls m :
  loaded_flag_consistent m → loaded_flag_consistent (foldl (step stats) m calls).
Proof.
  revert m. induction calls as [| c calls IH]; intros m Hm; simpl.
  - exact Hm.
  - apply IH, step_loaded_flag, Hm.
Qed.

(** C10.  A layer's [loaded_in_memory] flag is true exactly when its current
    device is not "nvme": right after construction, and after any sequence
    of [set_location] (and [update_access_stats]) calls that follows.  In
    particular a layer placed on "ramdisk" is reported as loaded in memory,
    and one placed on "nvme" is not. *)
Theorem loaded_in_memory_iff_not_nvme
    layer_id nm size shp dt dev gid ct qt np rp qp strip locks stats
    (calls : list call) :
  let m0 := (__init__ layer_id nm size shp dt dev gid ct qt np rp qp strip locks).1 in
  let m := foldl (step stats) m0 calls in
  (loaded_in_memory m = true ↔ current_device m ≠ "nvme") ∧
  (∀ path gid, loaded_in_memory (set_location m "ramdisk" path gid) = true) ∧
  (∀ path gid, loaded_in_memory (set_location m "nvme" path gid) = false).
Proof.
  intros m0 m. split; [| done].
  apply steps_loaded_flag, init_loaded_flag.
Qed.

(** After [set_location] the location fields agree with the tier. *)

Lemma set_location_consistent m dev path gid :
  location_consistent (set_location m dev path gid).
Proof.
  unfold location_consistent; simpl.
  destruct (String.eqb_spec dev "gpu") as [Hg | Hgpu];
    destruct (String.eqb_spec dev "nvme") as [Hn | Hnvme];
    destruct (String.eqb_spec dev "ramdisk") as [Hr | Hramdisk];
    repeat split; try done; intros [? [=]].
Qed.

(** The methods keep the agreement of the location fields with the tier
    once it holds. *)
Lemma step_consistent stats m c :
  location_consistent m → location_consistent (step stats m c).
Proof.
  destruct c as [dev path gid | now]; simpl; intros Hm.
  - apply set_location_consistent.
  - exact Hm.
Qed.

(** The constructor filters the accelerator id by the tier. *)
Lemma init_gpu_id_consistent layer_id nm size shp dt dev gid ct qt np rp qp strip locks :
  let m := (__init__ layer_id nm size shp dt dev gid ct qt np rp qp strip locks).1 in
  is_Some (gpu_id m) → current_device m = "gpu".
Proof.
  simpl. destruct (String.eqb_spec dev "gpu") as [-> | Hgpu]; [done |].
  intros [? [=]].
Qed.

(** C7.  The constructor stores the paths it is given whatever the tier: a
    layer built on "gpu" with accelerator 0 and an NVMe path carries both an
    accelerator id and a filesystem path, and one built on "cpu" carries a
    path, where [set_location] with the same arguments leaves none. *)
Theorem init_keeps_path_off_tier :
  let m := (__init__ 7 "layer.7" 1024 [32; 32] "float16" "gpu" (Some 0)
              None None (Some "/mnt/nvme/7.bin") None None false ∅).1 in
  let c := (__init__ 8 "layer.8" 1024 [32; 32] "float16" "cpu" None
              None None None (Some "/mnt/rd/8.bin") None false ∅).1 in
  (current_device m = "gpu" ∧ gpu_id m = Some 0 ∧
   nvme_path m = Some "/mnt/nvme/7.bin") ∧
  ¬ location_consistent m ∧
  (current_device c = "cpu" ∧ ramdisk_path c = Some "/mnt/rd/8.bin") ∧
  ¬ location_consistent c ∧
  nvme_path (set_location m "gpu" (Some "/mnt/nvme/7.bin") (Some 0)) = None.
Proof.
  cbv zeta. repeat split; try reflexivity.
  - intros (_ & Hn & _). simpl in Hn. discriminate Hn. by eexists.
  - intros (_ & _ & Hr). simpl in Hr. discriminate Hr. by eexists.
Qed.

End layer_metadata.

(** ** Transfer requests: status updates and callbacks *)

Section transfer_request.
Import TransferRequest.






Lemma update_status_seq_cons self s e rest :
  update_status_seq self ((s, e) :: rest) =
  ((update_status_seq (update_status self s e).1 rest).1,
   (update_status self s e).2 ++ (update_status_seq (update_status self s e).1 rest).2).
Proof.
  simpl. destruct (update_status_seq _ rest) as [self'' fired']. reflexivity.
Qed.

Lemma update_status_seq_callback calls : ∀ self,
  callback (update_status_seq self calls).1 = callback self.
Proof.
  induction calls as [| [s e] rest IH]; intros self; [reflexivity |].
  rewrite update_status_seq_cons. cbn [fst snd]. by rewrite IH.
Qed.






End transfer_request.

(** ** The binary heap under the transfer queue *)

Section heapq_facts.
Context {A : Type} (lt : A → A → bool).
Local Open Scope nat_scope.

(** Writing [x] over [a] trades one for the other. *)
Lemma insert_cons_perm (h : list A) (i : nat) (x a : A) :
  h !! i = Some a → a :: <[i:=x]> h ≡ₚ x :: h.
Proof.
  revert i. induction h as [| b h IH]; intros [| i] Hi; simplify_eq/=.
  - apply perm_swap.
  - rewrite perm_swap, (IH _ Hi). apply perm_swap.
Qed.

(** Moving the item at [j] to [i] and putting [x] at [j] holds the same
    items as putting [x] at [i]. *)
Lemma insert_swap_perm (h : list A) (i j : nat) (x y : A) :
  i ≠ j → h !! j = Some y → is_Some (h !! i) →
  <[j:=x]> (<[i:=y]> h) ≡ₚ <[i:=x]> h.
Proof.
  intros Hij Hj [a Hi].
  apply (Permutation_cons_inv (a := y)), (Permutation_cons_inv (a := a)).
  rewrite (perm_swap y a (<[i:=x]> h)), (insert_cons_perm h i x a Hi).
  rewrite (insert_cons_perm (<[i:=y]> h) j x y)
    by (by rewrite list_lookup_insert_ne).
  rewrite (perm_swap x a), (insert_cons_perm h i y a Hi).
  apply perm_swap.
Qed.

(** The loop of [_siftdown] keeps the length, moves the hole toward the
    root, and keeps the items: filling the hole it ends at holds what
    filling the hole it started at holds. *)
Lemma siftdown_loop_basic (x : A) (sp : nat) (h : list A) (pos : nat) :
  pos < length h →
  length (siftdown_loop lt x sp h pos).1 = length h ∧
  (siftdown_loop lt x sp h pos).2 ≤ pos ∧
  <[(siftdown_loop lt x sp h pos).2 := x]> (siftdown_loop lt x sp h pos).1
    ≡ₚ <[pos := x]> h.
Proof.
  funelim (siftdown_loop lt x sp h pos); intros Hpos; try done.
  destruct (lt newitem parent); [| done].
  destruct H as (Hlen & Hle & Hperm); [rewrite length_insert; lia |].
  rewrite length_insert in Hlen.
  split_and!; [done | lia |].
  rewrite Hperm. apply insert_swap_perm; [lia | done |].
  by apply lookup_lt_is_Some.
Qed.

Lemma smaller_child_range (endpos : nat) (h : list A) (pos : nat) :
  2 * pos + 1 < endpos →
  (smaller_child lt endpos h pos = 2 * pos + 1 ∨
   smaller_child lt endpos h pos = 2 * pos + 2) ∧
  smaller_child lt endpos h pos < endpos.
Proof.
  intros Hc. unfold smaller_child.
  repeat case_match; try lia.
  match goal with
  | H : _ && _ = true |- _ => apply andb_prop in H as [?%bool_decide_eq_true _]
  end.
  lia.
Qed.

(** The loop of [_siftup] keeps the length, moves the hole down to a
    leaf, and keeps the items. *)
Lemma siftup_loop_basic (h : list A) (pos : nat) (x : A) :
  pos < length h →
  length (siftup_loop lt (length h) h pos).1 = length h ∧
  pos ≤ (siftup_loop lt (length h) h pos).2 < length h ∧
  length h ≤ 2 * (siftup_loop lt (length h) h pos).2 + 1 ∧
  <[(siftup_loop lt (length h) h pos).2 := x]> (siftup_loop lt (length h) h pos).1
    ≡ₚ <[pos := x]> h.
Proof.
  remember (length h) as endpos eqn:Hend.
  funelim (siftup_loop lt endpos h pos); intros Hpos.
  - split_and!; simpl; [done | lia | lia | lia | done].
  - destruct (smaller_child_range (length h) h pos l) as [Hc Hlt].
    destruct (H x) as (Hlen & Hle & Hleaf & Hperm);
      [by rewrite length_insert | done |].
    split_and!; [done | lia | lia | done |].
    rewrite Hperm. apply insert_swap_perm; [lia | done |].
    by apply lookup_lt_is_Some.
  - destruct (smaller_child_range (length h) h pos l) as [_ Hlt].
    apply lookup_ge_None_1 in Heq. lia.
Qed.

(** [_siftdown] and [_siftup] only reorder the heap. *)
Lemma siftdown_perm (h : list A) (sp pos : nat) : _siftdown lt h sp pos ≡ₚ h.
Proof.
  unfold _siftdown. destruct (h !! pos) as [x |] eqn:Hx; [| done].
  pose proof (siftdown_loop_basic x sp h pos (lookup_lt_Some _ _ _ Hx))
    as (_ & _ & Hperm).
  destruct (siftdown_loop lt x sp h pos) as [h' pos'].
  simpl in Hperm. by rewrite Hperm, list_insert_id.
Qed.

Lemma siftup_perm (h : list A) (pos : nat) : _siftup lt h pos ≡ₚ h.
Proof.
  unfold _siftup. destruct (h !! pos) as [x |] eqn:Hx; [| done].
  pose proof (siftup_loop_basic h pos x (lookup_lt_Some _ _ _ Hx))
    as (_ & _ & _ & Hperm).
  destruct (siftup_loop lt (length h) h pos) as [h' pos'].
  simpl in Hperm. by rewrite siftdown_perm, Hperm, list_insert_id.
Qed.

(** [heappush] adds the item and nothing else. *)
Lemma heappush_perm (h : list A) (x : A) : heappush lt h x ≡ₚ x :: h.
Proof.
  unfold heappush. rewrite siftdown_perm. symmetry. apply Permutation_cons_append.
Qed.

Lemma heappush_length (h : list A) (x : A) :
  length (heappush lt h x) = S (length h).
Proof. by rewrite heappush_perm. Qed.

(** [heappop] takes one item out and keeps the others. *)
Lemma heappop_perm (h : list A) (x : A) (h' : list A) :
  heappop lt h = Some (x, h') → h ≡ₚ x :: h'.
Proof.
  unfold heappop. intros Hpop.
  destruct (last h) as [lastelt |] eqn:Hlast; [| done].
  apply last_Some in Hlast as [front ->].
  rewrite removelast_last in Hpop.
  destruct front as [| returnitem rest]; simplify_eq/=; [done |].
  rewrite siftup_perm. f_equiv. symmetry. apply Permutation_cons_append.
Qed.

Lemma heappop_is_Some (h : list A) : h ≠ [] → is_Some (heappop lt h).
Proof.
  intros Hne. unfold heappop.
  destruct (last_is_Some h) as [_ [lastelt ->]]; [done |].
  by destruct (removelast h).
Qed.

(** *** Heap order *)

(** The order [__lt__] must induce: [lt a b] excludes [lt b a], and "not
    greater" is transitive. *)
Hypothesis lt_asym : ∀ a b, lt a b = true → lt b a = false.
Hypothesis le_trans : ∀ a b c, lt b a = false → lt c b = false → lt c a = false.

Local Abbreviation edge_ok := (edge_ok lt).
Local Abbreviation is_heap := (is_heap lt).
Local Abbreviation heap_but_up := (heap_but_up lt).
Local Abbreviation heap_but_down := (heap_but_down lt).

Lemma lookup_insert2 (h : list A) (i j k : nat) (x y : A) :
  i < length h → j < length h →
  <[j:=x]> (<[i:=y]> h) !! k =
  if decide (k = j) then Some x else if decide (k = i) then Some y else h !! k.
Proof.
  intros Hi Hj. case_decide as Hkj.
  - subst k. apply list_lookup_insert_eq. by rewrite length_insert.
  - rewrite list_lookup_insert_ne by done. case_decide as Hki.
    + subst k. by apply list_lookup_insert_eq.
    + by rewrite list_lookup_insert_ne.
Qed.

Lemma lookup_insert1 (h : list A) (i k : nat) (x : A) :
  i < length h →
  <[i:=x]> h !! k = if decide (k = i) then Some x else h !! k.
Proof.
  intros Hi. case_decide as Hki.
  - subst k. by apply list_lookup_insert_eq.
  - by rewrite list_lookup_insert_ne.
Qed.

(** An edge of [<[pos:=x]> h] away from [pos], read in [h]. *)
Lemma edge_ok_insert_away (h : list A) (pos i : nat) (x y p : A) :
  pos < length h → edge_ok (<[pos:=x]> h) i →
  i ≠ pos → (i - 1) / 2 ≠ pos →
  h !! i = Some y → h !! ((i - 1) / 2) = Some p → lt y p = false.
Proof.
  intros Hpos Hedge Hi Hp Hy Hpar. apply (Hedge y p).
  - by rewrite list_lookup_insert_ne.
  - by rewrite list_lookup_insert_ne.
Qed.

(** Closes a lookup in [<[pos:=x]> h] away from [pos]. *)
Local Ltac lookup_away := rewrite list_lookup_insert_ne by lia; congruence.

(** The loop of [_siftdown] from the root restores the heap order. *)
Lemma siftdown_loop_heap (x : A) (sp : nat) (h : list A) (pos : nat) :
  sp = 0 → pos < length h → heap_but_up (<[pos:=x]> h) pos →
  is_heap (<[(siftdown_loop lt x sp h pos).2 := x]> (siftdown_loop lt x sp h pos).1).
Proof.
  funelim (siftdown_loop lt x sp h pos); intros -> Hpos [K1 K2]; simpl.
  - intros i Hi. apply K1; lia.
  - clear Heq0 Heqcall. destruct (lt newitem parent) eqn:Hlt; simpl.
    + apply H; [done | rewrite length_insert; lia |].
      set (pp := (pos - 1) / 2) in *.
      assert (pp < pos) as Hpp by (subst pp; lia).
      split.
      * intros i Hi Hne y p. rewrite !lookup_insert2 by lia.
        repeat case_decide; intros Hy Hp; try lia.
        all: try (injection Hy as <-). all: try (injection Hp as <-).
        -- by apply lt_asym.
        -- apply (le_trans _ parent); [by apply lt_asym |].
           apply (K1 i Hi ltac:(done) y parent);
             lookup_away.
        -- apply (K2 l i y parent); try done.
           ++ lookup_away.
           ++ lookup_away.
        -- apply (K1 i Hi ltac:(done) y p);
             lookup_away.
      * intros Hpp0 c y p Hc Hc0. rewrite !lookup_insert2 by lia.
        repeat case_decide; intros Hy Hp; try lia.
        all: try (injection Hy as <-). all: try (injection Hp as <-).
        -- apply (K1 pp Hpp0 ltac:(lia) parent p);
             lookup_away.
        -- apply (le_trans _ parent).
           ++ apply (K1 pp Hpp0 ltac:(lia) parent p);
                lookup_away.
           ++ apply (K1 c Hc0 ltac:(done) y parent);
                lookup_away.
    + intros i Hi. destruct (decide (i = pos)) as [-> | Hne]; [| by apply K1].
      intros y p. rewrite list_lookup_insert_eq by done.
      rewrite list_lookup_insert_ne by lia. intros [= <-] Hp.
      congruence.
  - apply lookup_ge_None_1 in Heq. lia.
Qed.

(** The child [_siftup] moves up is not greater than its sibling. *)
Lemma smaller_child_le (h : list A) (pos s : nat) (child y : A) :
  h !! smaller_child lt (length h) h pos = Some child →
  (s - 1) / 2 = pos → 0 < s → s ≠ smaller_child lt (length h) h pos →
  h !! s = Some y → lt y child = false.
Proof.
  unfold smaller_child. intros Hchild Hs Hs0 Hne Hy.
  assert (s = 2 * pos + 1 ∨ s = 2 * pos + 1 + 1) as [-> | ->] by lia.
  - rewrite Hy in *.
    destruct (h !! (2 * pos + 1 + 1)) as [r |] eqn:Hr; [| done].
    destruct (bool_decide _ && negb (lt y r)) eqn:Hsel; [| done].
    apply andb_prop in Hsel as [_ Hsel%negb_true_iff].
    congruence.
  - assert (is_Some (h !! (2 * pos + 1))) as [l Hl]
      by (apply lookup_lt_is_Some; apply lookup_lt_Some in Hy; lia).
    rewrite Hl, Hy in *.
    destruct (bool_decide _ && negb (lt l y)) eqn:Hsel; [done |].
    assert (l = child) as -> by congruence. apply lt_asym.
    apply andb_false_iff in Hsel as [Hsel | Hsel%negb_false_iff]; [| done].
    apply bool_decide_eq_false in Hsel. apply lookup_lt_Some in Hy. lia.
Qed.

(** The loop of [_siftup] takes the hole to a leaf; what is left to do is
    to let the item it is filled with bubble up. *)
Lemma siftup_loop_heap (h : list A) (pos : nat) (x : A) :
  pos < length h → heap_but_down (<[pos:=x]> h) pos →
  heap_but_up
    (<[(siftup_loop lt (length h) h pos).2 := x]> (siftup_loop lt (length h) h pos).1)
    (siftup_loop lt (length h) h pos).2.
Proof.
  remember (length h) as endpos eqn:Hend.
  funelim (siftup_loop lt endpos h pos); intros Hpos [J1 J2]; simpl.
  - clear Heq Heqcall. split; [| done].
    intros i Hi Hne. destruct (decide ((i - 1) / 2 = pos)) as [Hpar | Hpar];
      [| by apply J1].
    intros y p Hy _. apply lookup_lt_Some in Hy.
    rewrite length_insert in Hy. lia.
  - clear Heq0 Heqcall.
    destruct (smaller_child_range (length h) h pos l) as [Hc Hlt].
    pose proof (smaller_child_le h pos) as Hle.
    set (c := smaller_child lt (length h) h pos) in *.
    apply H; [by rewrite length_insert | done |]. clear H.
    split.
    + intros i Hi Hne Hpar y p. rewrite !lookup_insert2 by lia.
      repeat case_decide; intros Hy Hp; try lia.
      all: try (injection Hy as <-). all: try (injection Hp as <-).
      * apply (J2 ltac:(lia) c child p); try lia; lookup_away.
      * by apply (Hle i child y).
      * apply (J1 i Hi ltac:(done) ltac:(done) y p); lookup_away.
    + intros Hc0 d y p Hd Hd0. rewrite !lookup_insert2 by lia.
      repeat case_decide; intros Hy Hp; try lia.
      all: try (injection Hy as <-). all: try (injection Hp as <-).
      apply (J1 d Hd0 ltac:(lia) ltac:(lia) y child); lookup_away.
  - destruct (smaller_child_range (length h) h pos l) as [_ Hlt].
    apply lookup_ge_None_1 in Heq. lia.
Qed.

Lemma siftdown_heap (h : list A) (pos : nat) :
  heap_but_up h pos → is_heap (_siftdown lt h 0 pos).
Proof.
  intros K. unfold _siftdown.
  destruct (h !! pos) as [x |] eqn:Hx.
  - pose proof (siftdown_loop_heap x 0 h pos eq_refl (lookup_lt_Some _ _ _ Hx)) as Hheap.
    rewrite (list_insert_id h pos x Hx) in Hheap.
    destruct (siftdown_loop lt x 0 h pos) as [h' pos']. by apply Hheap.
  - destruct K as [K1 _]. intros i Hi.
    destruct (decide (i = pos)) as [-> | Hne]; [| by apply K1].
    intros y p Hy. congruence.
Qed.

Lemma siftup_heap (h : list A) :
  heap_but_down h 0 → is_heap (_siftup lt h 0).
Proof.
  intros J. unfold _siftup.
  destruct (h !! 0) as [x |] eqn:Hx.
  - pose proof (lookup_lt_Some _ _ _ Hx) as Hlen.
    pose proof (siftup_loop_heap h 0 x Hlen) as K.
    pose proof (siftup_loop_basic h 0 x Hlen) as (Hlen' & Hrange & _).
    rewrite (list_insert_id h 0 x Hx) in K. specialize (K J).
    destruct (siftup_loop lt (length h) h 0) as [h' pos']. simpl in *.
    by apply siftdown_heap.
  - destruct h; [| done]. intros i Hi y p Hy. done.
Qed.

(** [heappush] keeps the heap invariant. *)
Lemma heappush_heap (h : list A) (x : A) :
  is_heap h → is_heap (heappush lt h x).
Proof.
  intros Hheap. apply siftdown_heap. split.
  - intros i Hi Hne y p Hy Hp.
    assert (i < length h) as Hlt.
    { apply lookup_lt_Some in Hy. rewrite length_app in Hy. simpl in Hy. lia. }
    rewrite lookup_app_l in Hy, Hp by lia. by apply (Hheap i Hi y p).
  - intros _ c y p Hc Hc0 Hy _.
    apply lookup_lt_Some in Hy. rewrite length_app in Hy. simpl in Hy. lia.
Qed.

(** A prefix of a heap is a heap. *)
Lemma is_heap_app (h t : list A) : is_heap (h ++ t) → is_heap h.
Proof.
  intros Hheap i Hi y p Hy Hp.
  apply (Hheap i Hi y p); by apply lookup_app_l_Some.
Qed.

(** The root of a heap is not greater than any item. *)
Lemma is_heap_root (h : list A) (r : A) :
  is_heap h → h !! 0 = Some r → ∀ i y, h !! i = Some y → lt y r = false.
Proof.
  intros Hheap Hr i. induction (lt_wf i) as [i _ IH]. intros y Hy.
  destruct (decide (i = 0)) as [-> | Hi].
  - assert (y = r) as -> by congruence.
    destruct (lt r r) eqn:Hrr; [| done]. by rewrite (lt_asym _ _ Hrr) in Hrr.
  - assert (is_Some (h !! ((i - 1) / 2))) as [p Hp]
      by (apply lookup_lt_is_Some; apply lookup_lt_Some in Hy; lia).
    apply (le_trans _ p).
    + apply (IH ((i - 1) / 2)); [lia | done].
    + apply (Hheap i ltac:(lia) y p Hy Hp).
Qed.

(** [heappop] keeps the heap invariant and returns an item that no item
    left in the heap is smaller than. *)
Lemma heappop_heap (h : list A) (x : A) (h' : list A) :
  is_heap h → heappop lt h = Some (x, h') →
  is_heap h' ∧ ∀ y, y ∈ h' → lt y x = false.
Proof.
  intros Hheap Hpop.
  assert (∀ y, y ∈ h' → lt y x = false) as Hmin.
  { intros y Hy.
    assert (y ∈ h) as [i Hi]%list_elem_of_lookup
      by (rewrite (heappop_perm h x h' Hpop); by right).
    apply (is_heap_root h x Hheap) with i; [| done].
    unfold heappop in Hpop.
    destruct (last h) as [lastelt |] eqn:Hlast; [| done].
    apply last_Some in Hlast as [front ->].
    rewrite removelast_last in Hpop.
    destruct front as [| returnitem rest]; by simplify_eq/=. }
  split; [| done].
  unfold heappop in Hpop.
  destruct (last h) as [lastelt |] eqn:Hlast; [| done].
  apply last_Some in Hlast as [front ->].
  rewrite removelast_last in Hpop.
  apply is_heap_app in Hheap.
  destruct front as [| returnitem rest]; simplify_eq/=.
  { intros i Hi y p Hy. done. }
  apply siftup_heap. split; [| lia].
  intros i Hi _ Hpar y p Hy Hp.
  apply (Hheap i Hi y p).
  - by destruct i.
  - destruct ((i - 1) / 2) eqn:Hpi; [lia | done].
Qed.

Lemma is_heap_nil : is_heap [].
Proof. intros i Hi y p Hy. done. Qed.

Lemma push_all_heap (items h : list A) :
  is_heap h → is_heap (push_all lt h items).
Proof.
  revert h. induction items as [| x items IH]; intros h Hheap; [done |].
  apply IH, heappush_heap, Hheap.
Qed.

Lemma push_all_perm (items h : list A) : push_all lt h items ≡ₚ h ++ items.
Proof.
  revert h. induction items as [| x items IH]; intros h; simpl.
  - by rewrite app_nil_r.
  - change (push_all lt (heappush lt h x) items ≡ₚ h ++ x :: items).
    rewrite IH, heappush_perm. apply Permutation_middle.
Qed.

(** Popping a heap until it is empty gives its items, each not greater
    than those that follow. *)
Lemma drain_sorted (fuel : nat) : ∀ h : list A,
  is_heap h → length h ≤ fuel →
  drain lt fuel h ≡ₚ h ∧
  StronglySorted (λ a b, lt b a = false) (drain lt fuel h).
Proof.
  induction fuel as [| fuel IH]; intros h Hheap Hlen; simpl.
  - destruct h; [| simpl in Hlen; lia]. split; [done | constructor].
  - destruct (heappop lt h) as [[x h'] |] eqn:Hpop.
    + pose proof (heappop_perm h x h' Hpop) as Hperm.
      destruct (heappop_heap h x h' Hheap Hpop) as [Hheap' Hmin].
      destruct (IH h' Hheap') as [Hperm' Hsorted'].
      { rewrite Hperm in Hlen. simpl in Hlen. lia. }
      split; [by rewrite Hperm, Hperm' |].
      constructor; [done |].
      apply Forall_forall. intros y Hy. apply Hmin. by rewrite <- Hperm'.
    + destruct h as [| y h]; [split; [done | constructor] |].
      by destruct (heappop_is_Some (y :: h)) as [? ?]; [| congruence].
Qed.

End heapq_facts.

(** ** The order in which transfer requests leave the queue *)

Section sorted_lists.
Context {A : Type} (R : A → A → Prop).



Lemma StronglySorted_weaken (R' : A → A → Prop) (l : list A) :
  (∀ a b, R a b → R' a b) → StronglySorted R l → StronglySorted R' l.
Proof.
  intros HR. induction 1 as [| x l Hsorted IH Hall]; constructor; [done |].
  eapply Forall_impl; [done | auto].
Qed.

End sorted_lists.

Section transfer_queue_order.
Import TransferRequest.

Lemma __lt___spec (a b : t) : __lt__ a b = true ↔ dequeues_first a b.
Proof.
  unfold __lt__, dequeues_first.
  destruct (Z.eqb_spec (priority a) (priority b)) as [Heq | Hne].
  - rewrite Z.ltb_lt. lia.
  - rewrite Z.ltb_lt. lia.
Qed.

Lemma __lt___false (a b : t) : __lt__ a b = false ↔ ¬ dequeues_first a b.
Proof. rewrite <- __lt___spec. by destruct (__lt__ a b). Qed.

Lemma __lt___asym (a b : t) : __lt__ a b = true → __lt__ b a = false.
Proof. rewrite __lt___spec, __lt___false. unfold dequeues_first. lia. Qed.

Lemma __lt___le_trans (a b c : t) :
  __lt__ b a = false → __lt__ c b = false → __lt__ c a = false.
Proof. rewrite !__lt___false. unfold dequeues_first. lia. Qed.

(** Whatever the timestamps, the queue returns every request put into it,
    and never one that compares above a request it returns later. *)
Lemma dequeue_all_sorted (reqs : list t) :
  dequeue_all reqs ≡ₚ reqs ∧
  StronglySorted (λ a b, ¬ dequeues_first b a) (dequeue_all reqs).
Proof.
  unfold dequeue_all, queue_of.
  assert (is_heap __lt__ (push_all __lt__ [] reqs)) as Hheap
    by apply (push_all_heap __lt__ __lt___asym __lt___le_trans), is_heap_nil.
  pose proof (push_all_perm __lt__ reqs []) as Hperm. simpl in Hperm.
  destruct (drain_sorted __lt__ __lt___asym __lt___le_trans (length reqs)
              (push_all __lt__ [] reqs) Hheap) as [Hperm' Hsorted].
  { by rewrite Hperm. }
  split; [by rewrite Hperm', Hperm |].
  eapply StronglySorted_weaken; [| done].
  intros a b. by rewrite __lt___false.
Qed.

(** Whatever was put and taken before, the queue is a heap, and what
    [get_nowait] returns is a request of the queue that none of the others
    compares below. *)
Lemma get_nowait_heappop (q : list t) : get_nowait __lt__ q = heappop __lt__ q.
Proof. by destruct q. Qed.

Lemma queue_step_heap (q : list t) (op : queue_op) :
  is_heap __lt__ q → is_heap __lt__ (queue_step q op).
Proof.
  intros Hheap. destruct op as [item |]; simpl.
  - unfold put_nowait. case_match; simpl; [done |].
    by apply (heappush_heap __lt__ __lt___asym __lt___le_trans).
  - rewrite get_nowait_heappop.
    destruct (heappop __lt__ q) as [[x q'] |] eqn:Hpop; [| done].
    by destruct (heappop_heap __lt__ __lt___asym __lt___le_trans q x q' Hheap Hpop).
Qed.

Lemma queue_steps_heap (ops : list queue_op) (q : list t) :
  is_heap __lt__ q → is_heap __lt__ (foldl queue_step q ops).
Proof.
  revert q. induction ops as [| op ops IH]; intros q Hheap; [done |].
  apply IH, queue_step_heap, Hheap.
Qed.

Lemma get_nowait_least (ops : list queue_op) (x : t) (q' : list t) :
  get_nowait __lt__ (foldl queue_step [] ops) = Some (x, q') →
  foldl queue_step [] ops ≡ₚ x :: q' ∧ ∀ y, y ∈ q' → ¬ dequeues_first y x.
Proof.
  rewrite get_nowait_heappop. intros Hpop.
  split; [by apply (heappop_perm __lt__) |].
  intros y Hy. apply __lt___false.
  eapply (heappop_heap __lt__ __lt___asym __lt___le_trans); [| done | done].
  apply queue_steps_heap, is_heap_nil.
Qed.




(** Without distinct clock readings the heap keeps no arrival order: four
    requests of one priority stamped with the same reading leave the queue
    as first, third, second, fourth. *)
Lemma equal_timestamps_not_fifo :
  layer_id <$> dequeue_all
    [ __init__ 1 "cpu" "gpu" 5 None None 7;
      __init__ 2 "cpu" "gpu" 5 None None 7;
      __init__ 3 "cpu" "gpu" 5 None None 7;
      __init__ 4 "cpu" "gpu" 5 None None 7 ] = [1; 3; 2; 4].
Proof. reflexivity. Qed.

End transfer_queue_order.

(** ** The transfer endpoint: what a submission checks and changes *)

Section transfer_endpoint.

(** The endpoint touches nothing but the queue. *)
Lemma api_transfer_layer_frame req_api now g :
  layer_metadata_registry (api_transfer_layer req_api now g).2 = layer_metadata_registry g ∧
  hardware_summary (api_transfer_layer req_api now g).2 = hardware_summary g ∧
  layer_access_stats (api_transfer_layer req_api now g).2 = layer_access_stats g ∧
  layer_locks (api_transfer_layer req_api now g).2 = layer_locks g.
Proof.
  unfold api_transfer_layer. repeat case_match; done.
Qed.

(** The endpoint never reads [hardware_summary]. *)
Lemma api_transfer_layer_hw_blind req_api now g hw :
  (api_transfer_layer req_api now (set_hardware_summary hw g)).1 =
    (api_transfer_layer req_api now g).1 ∧
  layer_transfer_queue (api_transfer_layer req_api now (set_hardware_summary hw g)).2 =
    layer_transfer_queue (api_transfer_layer req_api now g).2.
Proof.
  unfold api_transfer_layer. simpl. repeat case_match; done.
Qed.

(** A submission for a registered layer with a valid destination prefix is
    queued while the queue has room. *)
Lemma api_transfer_layer_queued req_api now g meta :
  layer_metadata_registry g !! req_layer_id req_api = Some meta →
  has_valid_prefix (req_destination_device req_api) = true →
  (length (layer_transfer_queue g) < layer_transfer_queue_maxsize)%nat →
  api_transfer_layer req_api now g =
  (Queued "Transfer request queued." (LayerMetadata.id meta)
     (req_destination_device req_api),
   set_layer_transfer_queue
     (heappush TransferRequest.__lt__ (layer_transfer_queue g)
        (transfer_obj_of meta req_api now)) g).
Proof.
  intros Hmeta Hprefix Hroom. unfold api_transfer_layer, put_nowait.
  rewrite Hmeta, Hprefix. simpl.
  by rewrite (bool_decide_eq_false_2 (_ ≤ _)%nat) by lia.
Qed.

(** The three rejections of the endpoint, in the order it checks them. *)
Lemma api_transfer_layer_cases req_api now g :
  (layer_metadata_registry g !! req_layer_id req_api = None ∧
   ∃ detail, api_transfer_layer req_api now g = (HTTPException 404 detail, g)) ∨
  (is_Some (layer_metadata_registry g !! req_layer_id req_api) ∧
   has_valid_prefix (req_destination_device req_api) = false ∧
   api_transfer_layer req_api now g =
     (HTTPException 400 "Invalid destination_device format.", g)) ∨
  (is_Some (layer_metadata_registry g !! req_layer_id req_api) ∧
   has_valid_prefix (req_destination_device req_api) = true ∧
   (layer_transfer_queue_maxsize ≤ length (layer_transfer_queue g))%nat ∧
   api_transfer_layer req_api now g =
     (HTTPException 503 "Layer transfer queue full.", g)) ∨
  (∃ meta, layer_metadata_registry g !! req_layer_id req_api = Some meta ∧
   has_valid_prefix (req_destination_device req_api) = true ∧
   (length (layer_transfer_queue g) < layer_transfer_queue_maxsize)%nat ∧
   api_transfer_layer req_api now g =
     (Queued "Transfer request queued." (LayerMetadata.id meta)
        (req_destination_device req_api),
      set_layer_transfer_queue
        (heappush TransferRequest.__lt__ (layer_transfer_queue g)
           (transfer_obj_of meta req_api now)) g)).
Proof.
  destruct (layer_metadata_registry g !! req_layer_id req_api) as [meta |] eqn:Hmeta.
  - destruct (has_valid_prefix (req_destination_device req_api)) eqn:Hprefix.
    + destruct (decide (length (layer_transfer_queue g) <
                        layer_transfer_queue_maxsize)%nat) as [Hroom | Hfull].
      * right. right. right. exists meta.
        split_and!; try done. by apply api_transfer_layer_queued.
      * right. right. left. split_and!; [done | done | lia |].
        unfold api_transfer_layer, put_nowait. rewrite Hmeta, Hprefix. simpl.
        rewrite (bool_decide_eq_true_2 (_ ≤ _)%nat) by lia. done.
    + right. left. split_and!; [done | done |].
      unfold api_transfer_layer. by rewrite Hmeta, Hprefix.
  - left. split; [done |]. eexists. unfold api_transfer_layer. by rewrite Hmeta.
Qed.

(** Submissions for registered layers with valid destinations, as long as
    the queue has room for all of them, build the queue by pushing their
    requests in the order of submission. *)
Lemma submit_all_queue (subs : list (TransferRequestAPI * Z)) : ∀ g,
  Forall (λ s, is_Some (layer_metadata_registry g !! req_layer_id s.1) ∧
               has_valid_prefix (req_destination_device s.1) = true) subs →
  (length (layer_transfer_queue g) + length subs ≤ layer_transfer_queue_maxsize)%nat →
  ∃ reqs,
    mapM (request_of g) subs = Some reqs ∧
    layer_transfer_queue (submit_all subs g) =
      push_all TransferRequest.__lt__ (layer_transfer_queue g) reqs ∧
    layer_metadata_registry (submit_all subs g) = layer_metadata_registry g.
Proof.
  induction subs as [| [req_api now] subs IH]; intros g Hvalid Hroom.
  - by exists [].
  - apply Forall_cons in Hvalid as [[[meta Hmeta] Hprefix] Hvalid].
    simpl in Hmeta, Hprefix, Hroom.
    pose proof (api_transfer_layer_queued req_api now g meta Hmeta Hprefix
                  ltac:(lia)) as Hstep.
    set (g1 := (api_transfer_layer req_api now g).2).
    assert (layer_metadata_registry g1 = layer_metadata_registry g) as Hreg
      by (subst g1; by rewrite Hstep).
    assert (layer_transfer_queue g1 =
            heappush TransferRequest.__lt__ (layer_transfer_queue g)
              (transfer_obj_of meta req_api now)) as Hq
      by (subst g1; by rewrite Hstep).
    destruct (IH g1) as (reqs & Hreqs & Hqueue & Hreg').
    { by rewrite Hreg. }
    { rewrite Hq, heappush_length. lia. }
    exists (transfer_obj_of meta req_api now :: reqs). split_and!.
    + assert (request_of g (req_api, now) =
              Some (transfer_obj_of meta req_api now)) as Hfirst
        by (unfold request_of; simpl; by rewrite Hmeta).
      assert (request_of g1 = request_of g) as Hsame
        by (unfold request_of; by rewrite Hreg).
      cbn [mapM]. rewrite Hfirst. rewrite Hsame in Hreqs. by rewrite Hreqs.
    + change (submit_all ((req_api, now) :: subs) g) with (submit_all subs g1).
      by rewrite Hqueue, Hq.
    + change (submit_all ((req_api, now) :: subs) g) with (submit_all subs g1).
      by rewrite Hreg'.
Qed.



(** C4 (counterexample).  With the module's initial hardware summary, where
    the RAM disk is marked unavailable, a transfer of the registered layer to
    "ramdisk" is answered 202 and the request is on the queue. *)
Lemma transfer_to_unavailable_tier_is_queued :
  let g := example_globals hardware_summary_initial [] in
  let req := {| req_layer_id := 7; req_destination_device := "ramdisk";
                req_priority := 5 |} in
  destination_available (hardware_summary g) "ramdisk" = false ∧
  (api_transfer_layer req 50 g).1 = Queued "Transfer request queued." 7 "ramdisk" ∧
  layer_transfer_queue (api_transfer_layer req 50 g).2 =
    [TransferRequest.__init__ 7 "cpu" "ramdisk" 5 None None 50] ∧
  layer_transfer_queue (api_transfer_layer req 50 g).2 ≠ layer_transfer_queue g.
Proof. cbv zeta. split_and!; try reflexivity. discriminate. Qed.

(** C4 (amended).  The endpoint never reads the hardware summary: under
    every hardware summary a submission gets the same answer.  It is
    rejected for an unknown layer (404), for a destination that starts with
    none of "cpu", "gpu", "ramdisk", "nvme" (400) and for a full queue (503),
    each time with the queue unchanged; in every other case, so also when
    the summary marks the destination tier unavailable, it is answered 202
    and its request is added to the queue. *)
Theorem api_transfer_layer_ignores_availability req_api now g hw :
  let r := api_transfer_layer req_api now (set_hardware_summary hw g) in
  r.1 = (api_transfer_layer req_api now g).1 ∧
  match layer_metadata_registry g !! req_layer_id req_api with
  | None =>
      (∃ detail, r.1 = HTTPException 404 detail) ∧
      layer_transfer_queue r.2 = layer_transfer_queue g
  | Some meta =>
      if negb (has_valid_prefix (req_destination_device req_api))
      then r.1 = HTTPException 400 "Invalid destination_device format." ∧
           layer_transfer_queue r.2 = layer_transfer_queue g
      else if bool_decide (layer_transfer_queue_maxsize ≤
                           length (layer_transfer_queue g))%nat
      then r.1 = HTTPException 503 "Layer transfer queue full." ∧
           layer_transfer_queue r.2 = layer_transfer_queue g
      else r.1 = Queued "Transfer request queued." (LayerMetadata.id meta)
                   (req_destination_device req_api) ∧
           layer_transfer_queue r.2
             ≡ₚ transfer_obj_of meta req_api now :: layer_transfer_queue g
  end.
Proof.
  cbv zeta.
  destruct (api_transfer_layer_hw_blind req_api now g hw) as [-> ->].
  split; [done |].
  destruct (api_transfer_layer_cases req_api now g)
    as [(-> & detail & ->) | [([meta ->] & -> & ->) |
        [([meta ->] & -> & Hfull & ->) | (meta & -> & -> & Hroom & ->)]]]; simpl.
  - eauto.
  - done.
  - by rewrite bool_decide_eq_true_2 by done.
  - rewrite bool_decide_eq_false_2 by lia. split; [done |]. apply heappush_perm.
Qed.

(** C5 (counterexample).  The layer is in host memory and a transfer to
    "cpu" is submitted: the request is put on the queue with status
    "pending", source and destination both "cpu"; it is not completed. *)
Lemma same_tier_transfer_stays_pending :
  let g := example_globals hardware_summary_initial [] in
  let req := {| req_layer_id := 7; req_destination_device := "cpu";
                req_priority := 5 |} in
  LayerMetadata.current_device example_layer = req_destination_device req ∧
  (api_transfer_layer req 50 g).1 = Queued "Transfer request queued." 7 "cpu" ∧
  (TransferRequest.status <$> layer_transfer_queue (api_transfer_layer req 50 g).2) =
    ["pending"] ∧
  (TransferRequest.status <$> layer_transfer_queue (api_transfer_layer req 50 g).2) ≠
    ["completed"] ∧
  layer_transfer_queue (api_transfer_layer req 50 g).2 ≠ layer_transfer_queue g.
Proof. cbv zeta. split_and!; try reflexivity; discriminate. Qed.

(** C5 (amended).  A submission whose destination is the device the layer
    is on is treated like any other: with a valid destination prefix and
    room in the queue it is answered 202 and a request with status
    "pending", source and destination equal, joins the queue.  The
    submission leaves the layer's metadata, so its location and its
    [access_count], and the access statistics as they were. *)
Theorem same_tier_transfer_is_queued req_api now g meta :
  layer_metadata_registry g !! req_layer_id req_api = Some meta →
  LayerMetadata.current_device meta = req_destination_device req_api →
  has_valid_prefix (req_destination_device req_api) = true →
  (length (layer_transfer_queue g) < layer_transfer_queue_maxsize)%nat →
  let r := api_transfer_layer req_api now g in
  let t := transfer_obj_of meta req_api now in
  r.1 = Queued "Transfer request queued." (LayerMetadata.id meta)
          (req_destination_device req_api) ∧
  layer_transfer_queue r.2 ≡ₚ t :: layer_transfer_queue g ∧
  TransferRequest.status t = "pending" ∧
  TransferRequest.source_device t = TransferRequest.destination_device t ∧
  layer_metadata_registry r.2 !! req_layer_id req_api = Some meta ∧
  layer_access_stats r.2 = layer_access_stats g.
Proof.
  intros Hmeta Hsame Hprefix Hroom. cbv zeta.
  destruct (api_transfer_layer_frame req_api now g) as (Hreg & _ & Hstats & _).
  rewrite Hreg, Hstats.
  rewrite (api_transfer_layer_queued req_api now g meta) by done.
  split_and!; try done. simpl. apply heappush_perm.
Qed.

(** C5 (amended) at the counterexample's input: the example layer, in host
    memory, and a transfer to "cpu". *)
Lemma same_tier_transfer_is_queued_example :
  let g := example_globals hardware_summary_initial [] in
  let req := {| req_layer_id := 7; req_destination_device := "cpu";
                req_priority := 5 |} in
  layer_metadata_registry g !! req_layer_id req = Some example_layer ∧
  LayerMetadata.current_device example_layer = req_destination_device req ∧
  has_valid_prefix (req_destination_device req) = true ∧
  (length (layer_transfer_queue g) < layer_transfer_queue_maxsize)%nat ∧
  (api_transfer_layer req 50 g).1 =
    Queued "Transfer request queued." (LayerMetadata.id example_layer)
      (req_destination_device req) ∧
  layer_transfer_queue (api_transfer_layer req 50 g).2
    ≡ₚ transfer_obj_of example_layer req 50 :: layer_transfer_queue g ∧
  TransferRequest.status (transfer_obj_of example_layer req 50) = "pending" ∧
  TransferRequest.source_device (transfer_obj_of example_layer req 50) =
    TransferRequest.destination_device (transfer_obj_of example_layer req 50) ∧
  layer_metadata_registry (api_transfer_layer req 50 g).2 !! req_layer_id req =
    Some example_layer ∧
  layer_access_stats (api_transfer_layer req 50 g).2 = layer_access_stats g.
Proof.
  cbv zeta.
  assert (layer_metadata_registry (example_globals hardware_summary_initial [])
            !! 7 = Some example_layer) as Hmeta by reflexivity.
  assert (has_valid_prefix "cpu" = true) as Hprefix by reflexivity.
  assert (0 < layer_transfer_queue_maxsize)%nat as Hroom
    by (unfold layer_transfer_queue_maxsize; lia).
  split; [exact Hmeta |]. split; [reflexivity |].
  split; [exact Hprefix |]. split; [exact Hroom |].
  exact (same_tier_transfer_is_queued
           {| req_layer_id := 7; req_destination_device := "cpu";
              req_priority := 5 |} 50
           (example_globals hardware_summary_initial []) example_layer
           Hmeta eq_refl Hprefix Hroom).
Defined.

(** C8.  While the transfer queue holds its 200 requests, a submission is
    answered at once with an error and changes nothing, the queue included:
    for a registered layer and a valid destination the error is 503 "Layer
    transfer queue full."; an unknown layer is answered 404 and a malformed
    destination 400, the checks that come first. *)
Theorem full_queue_rejects req_api now g :
  (layer_transfer_queue_maxsize ≤ length (layer_transfer_queue g))%nat →
  (api_transfer_layer req_api now g).2 = g ∧
  (api_transfer_layer req_api now g).1 =
    match layer_metadata_registry g !! req_layer_id req_api with
    | None =>
        HTTPException 404
          ("Layer ID " +:+ pretty (req_layer_id req_api) +:+ " not found.")
    | Some _ =>
        if has_valid_prefix (req_destination_device req_api)
        then HTTPException 503 "Layer transfer queue full."
        else HTTPException 400 "Invalid destination_device format."
    end.
Proof.
  intros Hfull. unfold api_transfer_layer, put_nowait.
  destruct (layer_metadata_registry g !! req_layer_id req_api) as [meta |];
    [| done].
  destruct (has_valid_prefix (req_destination_device req_api)); [| done].
  simpl. by rewrite (bool_decide_eq_true_2 (_ ≤ _)%nat) by lia.
Qed.

(** C8 at a queue of 200 requests: a transfer of the registered layer to
    "gpu:0" is answered 503 and nothing changes. *)
Lemma full_queue_rejects_example :
  let g := example_globals hardware_summary_initial full_queue in
  let req := {| req_layer_id := 7; req_destination_device := "gpu:0";
                req_priority := 1 |} in
  (layer_transfer_queue_maxsize ≤ length (layer_transfer_queue g))%nat ∧
  ((api_transfer_layer req 50 g).2 = g ∧
   (api_transfer_layer req 50 g).1 =
     match layer_metadata_registry g !! req_layer_id req with
     | None =>
         HTTPException 404
           ("Layer ID " +:+ pretty (req_layer_id req) +:+ " not found.")
     | Some _ =>
         if has_valid_prefix (req_destination_device req)
         then HTTPException 503 "Layer transfer queue full."
         else HTTPException 400 "Invalid destination_device format."
     end) ∧
  (api_transfer_layer req 50 g).1 = HTTPException 503 "Layer transfer queue full.".
Proof.
  cbv zeta.
  assert (layer_transfer_queue_maxsize ≤
          length (layer_transfer_queue
                    (example_globals hardware_summary_initial full_queue)))%nat
    as Hfull.
  { change (200 ≤ length (replicate 200
              (TransferRequest.__init__ 7 "cpu" "nvme" 5 None None 10)))%nat.
    by rewrite length_replicate. }
  split; [exact Hfull |].
  split; [| reflexivity].
  exact (full_queue_rejects
           {| req_layer_id := 7; req_destination_device := "gpu:0";
              req_priority := 1 |} 50
           (example_globals hardware_summary_initial full_queue) Hfull).
Defined.

End transfer_endpoint.

(** ** Hardware detection: the accelerator budget *)

Section gpu_detection.

(** A per-device setting is the entry under the device's index when there
    is one, else the configured default, else the built-in default. *)
Lemma cfg_per_gpu_spec per_gpu default_val dflt i :
  cfg_per_gpu per_gpu default_val dflt i =
  match per_gpu with
  | Some d =>
      match d !! py_str i with
      | Some v => v
      | None => match default_val with Some v => v | None => dflt end
      end
  | None => match default_val with Some v => v | None => dflt end
  end.
Proof.
  unfold cfg_per_gpu. destruct per_gpu as [d |]; simpl.
  - by destruct (d !! py_str i), default_val.
  - rewrite lookup_empty. by destruct default_val.
Qed.


Lemma gpu_loop_spec gpu_cfg props (range : list nat) : ∀ devs total,
  gpu_loop gpu_cfg props range devs total =
  us ← mapM (usable_of gpu_cfg props) range;
  Ok (devs ++ zip_with (λ i u, device_entry i (props i) u) range us,
      total + sum_list_Z us).
Proof.
  induction range as [| i range IH]; intros devs total.
  - simpl. by rewrite app_nil_r, Z.add_0_r.
  - cbn [gpu_loop mapM]. fold (usable_of gpu_cfg props i).
    destruct (usable_of gpu_cfg props i) as [u | e]; [| done].
    cbn [mbind Raise_bind]. rewrite IH.
    destruct (mapM (usable_of gpu_cfg props) range) as [us | e]; [| done].
    simpl. by rewrite <- app_assoc, Z.add_assoc.
Qed.


(** Detection on a machine with two devices, the second configured to 57
    percent: 8 GiB less 256 MiB at 90 percent is 7489349222 bytes, and 100
    bytes at 57 percent is 56 bytes, the double [100 * 0.57] being just
    under 57. *)
Lemma detect_gpu_example :
  let gpu_cfg :=
    {| reserved_vram_mb_per_gpu := None;
       reserved_vram_mb_default := Some (PyInt 256);
       max_utilization_percent_per_gpu := Some {[ "1" := PyInt 57 ]};
       max_utilization_percent_default := Some (PyInt 90) |} in
  let props (i : nat) :=
    match i with
    | O => {| props_name := "GPU-A"; total_memory := 8 * 2 ^ 30; major := 8; minor := 6 |}
    | _ => {| props_name := "GPU-B"; total_memory := 256 * 2 ^ 20 + 100; major := 7;
              minor := 5 |}
    end in
  detect_all_hardware_gpu gpu_cfg true 2 props (gpu hardware_summary_initial) =
  Ok {| gpu_available := true;
        gpu_count := 2;
        devices :=
          [ {| dev_id := 0; dev_name := "GPU-A"; total_memory_bytes := 8589934592;
               usable_memory_bytes_planning := 7489349222;
               compute_capability := "8.6" |};
            {| dev_id := 1; dev_name := "GPU-B"; total_memory_bytes := 268435556;
               usable_memory_bytes_planning := 56;
               compute_capability := "7.5" |} ];
        total_usable_vram_bytes_planning := Some 7489349278 |}.
Proof. vm_compute. reflexivity. Qed.

End gpu_detection.

(** ** Executing a transfer *)

Section transfer_execution.

(** C2.  When the write to the destination fails, the worker leaves the
    globals as they were, so the layer's entry in the registry, with its
    device, paths, accelerator id and size, is the entry from before the
    transfer; the request ends in status "failed" with the I/O error, cause
    included, as its error message, and its callback, if it has one, is
    called once, with failure. *)
Theorem failed_write_leaves_location budget cause req g meta :
  layer_metadata_registry g !! TransferRequest.layer_id req = Some meta →
  LayerMetadata.current_device meta ≠ TransferRequest.destination_device req →
  within_budget (budget (TransferRequest.destination_device req))
    (tier_used_bytes (layer_metadata_registry g) (TransferRequest.destination_device req) +
     LayerMetadata.current_size_bytes meta) →
  let r := execute_transfer budget (IOError cause) req g in
  r.2 = g ∧
  layer_metadata_registry r.2 !! TransferRequest.layer_id req = Some meta ∧
  TransferRequest.status r.1.1 = "failed" ∧
  TransferRequest.error_message r.1.1 =
    Some (io_failure (TransferRequest.destination_device req) cause) ∧
  r.1.2.*1.*2 = match TransferRequest.callback req with Some _ => [false] | None => [] end.
Proof.
  intros Hmeta Hdev Hroom. cbv zeta. unfold execute_transfer.
  rewrite Hmeta.
  rewrite (proj2 (String.eqb_neq _ _)) by done.
  rewrite bool_decide_eq_true_2 by done. simpl.
  split_and!; try done.
  by destruct (TransferRequest.callback req).
Qed.

(** Whatever the request, a failed write changes nothing in the globals. *)
Lemma failed_write_frame budget cause req g :
  (execute_transfer budget (IOError cause) req g).2 = g.
Proof.
  unfold execute_transfer. simpl. repeat case_match; done.
Qed.

(** C2 at a 10 MiB layer in host memory whose write to NVMe fails with "No
    space left on device", the request carrying a callback. *)
Lemma failed_write_leaves_location_example :
  let budget := λ _ : string, nvme_budget in
  let req := TransferRequest.__init__ 7 "cpu" "nvme" 2 None (Some "on_done") 50 in
  let small := (LayerMetadata.__init__ 7 "model.layers.7" (10 * 2 ^ 20) [512; 512]
                  "float16" "cpu" None None None None None None false ∅).1 in
  let g := set_layer_metadata_registry {[ 7 := small ]}
             (example_globals hw_small_nvme []) in
  let r := execute_transfer budget (IOError "No space left on device") req g in
  layer_metadata_registry g !! TransferRequest.layer_id req = Some small ∧
  LayerMetadata.current_device small ≠ TransferRequest.destination_device req ∧
  within_budget (budget (TransferRequest.destination_device req))
    (tier_used_bytes (layer_metadata_registry g) (TransferRequest.destination_device req) +
     LayerMetadata.current_size_bytes small) ∧
  r.2 = g ∧
  layer_metadata_registry r.2 !! TransferRequest.layer_id req = Some small ∧
  TransferRequest.status r.1.1 = "failed" ∧
  TransferRequest.error_message r.1.1 =
    Some (io_failure (TransferRequest.destination_device req) "No space left on device") ∧
  r.1.2.*1.*2 = match TransferRequest.callback req with Some _ => [false] | None => [] end.
Proof.
  cbv zeta.
  set (small := (LayerMetadata.__init__ 7 "model.layers.7" (10 * 2 ^ 20) [512; 512]
                  "float16" "cpu" None None None None None None false ∅).1).
  set (g := set_layer_metadata_registry {[ 7 := small ]}
              (example_globals hw_small_nvme [])).
  set (req := TransferRequest.__init__ 7 "cpu" "nvme" 2 None (Some "on_done") 50).
  assert (layer_metadata_registry g !! TransferRequest.layer_id req = Some small)
    as Hmeta by reflexivity.
  assert (LayerMetadata.current_device small ≠ TransferRequest.destination_device req)
    as Hdev by discriminate.
  assert (within_budget nvme_budget
            (tier_used_bytes (layer_metadata_registry g)
               (TransferRequest.destination_device req) +
             LayerMetadata.current_size_bytes small)) as Hroom
    by (vm_compute; discriminate).
  split; [exact Hmeta |]. split; [exact Hdev |]. split; [exact Hroom |].
  exact (failed_write_leaves_location (λ _ : string, nvme_budget)
           "No space left on device" req g small Hmeta Hdev Hroom).
Defined.

End transfer_execution.

(** * Further properties of the code *)

(** ** Layer metadata: location and access counters *)

Section more_layer_metadata.
Import LayerMetadata.

(** X1.  Once [set_location] has been called on a layer, its location
    fields agree with its device, and stay so under every later call of
    [set_location] and [update_access_stats]: an accelerator id only on
    "gpu", an NVMe path only on "nvme", a RAM-disk path only on "ramdisk". *)
Theorem set_location_settles_location (m : t) dev path gid stats (calls : list call) :
  location_consistent (foldl (step stats) (set_location m dev path gid) calls).
Proof.
  generalize (set_location_consistent m dev path gid).
  generalize (set_location m dev path gid). clear m dev path gid.
  induction calls as [| c calls IH]; intros m Hm; [done |].
  apply IH, step_consistent, Hm.
Qed.

Lemma access_calls_cons (c : call) (calls : list call) :
  access_calls (c :: calls) =
  match c with
  | UpdateAccessStats now => now :: access_calls calls
  | SetLocation _ _ _ => access_calls calls
  end.
Proof. by destruct c. Qed.

(** X2.  Over any run of method calls on a layer, [access_count] grows by
    exactly the number of [update_access_stats] calls and
    [last_access_timestamp] is the clock reading of the last of them (the
    old one if there was none); [set_location] touches neither, and no call
    changes the layer's id, name or sizes. *)
Theorem access_count_counts_updates (m : t) stats (calls : list call) :
  let m' := foldl (step stats) m calls in
  access_count m' = access_count m + Z.of_nat (length (access_calls calls)) ∧
  last_access_timestamp m' =
    default (last_access_timestamp m) (last (access_calls calls)) ∧
  id m' = id m ∧ name m' = name m ∧
  original_size_bytes m' = original_size_bytes m ∧
  current_size_bytes m' = current_size_bytes m.
Proof.
  cbv zeta. revert m. induction calls as [| c calls IH]; intros m.
  - simpl. split_and!; try done. lia.
  - cbn [foldl]. destruct (IH (step stats m c)) as (Hc & Hl & Hid & Hn & Ho & Hs).
    rewrite Hc, Hl, Hid, Hn, Ho, Hs, access_calls_cons.
    destruct c as [dev path gid | now]; simpl.
    + done.
    + split_and!; try done; [lia |]. rewrite last_cons. by case_match.
Qed.

End more_layer_metadata.

(** ** The registry and the access statistics *)

Section more_registry.

Lemma update_access_stats_in_Some key now g g' :
  update_access_stats_in key now g = Some g' →
  ∃ self,
    layer_metadata_registry g !! key = Some self ∧
    g' = {| hardware_summary := hardware_summary g;
            layer_metadata_registry :=
              <[key := (LayerMetadata.update_access_stats self now
                          (layer_access_stats g)).1]> (layer_metadata_registry g);
            layer_access_stats :=
              (LayerMetadata.update_access_stats self now (layer_access_stats g)).2;
            layer_locks := layer_locks g;
            layer_transfer_queue := layer_transfer_queue g |}.
Proof.
  unfold update_access_stats_in. intros H.
  destruct (layer_metadata_registry g !! key) as [self |]; [| done].
  simpl in H. destruct (get_lock self (layer_locks g)); [| done].
  simpl in H. exists self. split; [done |]. by injection H.
Qed.

Lemma set_location_in_Some key d p gid g g' :
  set_location_in key d p gid g = Some g' →
  ∃ self,
    layer_metadata_registry g !! key = Some self ∧
    g' = set_layer_metadata_registry
           (<[key := LayerMetadata.set_location self d p gid]>
              (layer_metadata_registry g)) g.
Proof.
  unfold set_location_in. intros H.
  destruct (layer_metadata_registry g !! key) as [self |]; [| done].
  simpl in H. destruct (get_lock self (layer_locks g)); [| done].
  simpl in H. exists self. split; [done |]. by injection H.
Qed.

Lemma server_step_sound dom0 g c :
  registry_sound dom0 g → registry_sound dom0 (server_step g c).
Proof.
  intros (Hkeyed & Hagree & Hdom).
  destruct c as [key now | key d p gid | req_api now]; simpl.
  - destruct (update_access_stats_in key now g) as [g' |] eqn:Hcall; [| done].
    apply update_access_stats_in_Some in Hcall as (self & Hself & ->).
    pose proof (Hkeyed key self Hself) as Hid. simpl.
    split_and!.
    + intros k m. simpl. destruct (decide (k = key)) as [-> | Hne].
      * rewrite lookup_insert_eq. by intros [= <-].
      * rewrite lookup_insert_ne by done. apply Hkeyed.
    + intros k st. simpl. rewrite Hid.
      destruct (decide (k = key)) as [-> | Hne].
      * rewrite !lookup_insert_eq. intros [= <-]. by eexists.
      * rewrite !lookup_insert_ne by done. apply Hagree.
    + simpl. rewrite dom_insert_L, <- Hdom.
      apply elem_of_dom_2 in Hself.
      apply subseteq_union_1_L. by apply singleton_subseteq_l.
  - destruct (set_location_in key d p gid g) as [g' |] eqn:Hcall; [| done].
    apply set_location_in_Some in Hcall as (self & Hself & ->).
    split_and!.
    + intros k m. simpl. destruct (decide (k = key)) as [-> | Hne].
      * rewrite lookup_insert_eq. intros [= <-]. by apply (Hkeyed key self).
      * rewrite lookup_insert_ne by done. apply Hkeyed.
    + intros k st Hst. simpl in *.
      destruct (Hagree k st Hst) as (m & Hm & Hc & Hl & Hn).
      destruct (decide (k = key)) as [-> | Hne].
      * rewrite lookup_insert_eq. eexists. split; [done |].
        assert (m = self) as -> by congruence. done.
      * rewrite lookup_insert_ne by done. by exists m.
    + simpl. rewrite dom_insert_L, <- Hdom.
      apply elem_of_dom_2 in Hself.
      apply subseteq_union_1_L. by apply singleton_subseteq_l.
  - destruct (api_transfer_layer_frame req_api now g) as (Hreg & _ & Hstats & _).
    unfold registry_sound, registry_keyed, stats_agree.
    rewrite Hreg, Hstats. done.
Qed.

(** X3.  Start from globals whose registry files every layer under its id
    and whose access statistics agree with the layers.  After any run of
    [update_access_stats], [set_location] and transfer submissions, the
    registry still files every layer under its id and holds the same ids,
    and every statistics entry still repeats the access count, the last
    access time and the name of its layer. *)
Theorem access_stats_follow_registry (g : Globals) (calls : list server_call) :
  registry_keyed g → stats_agree g →
  let g' := foldl server_step g calls in
  registry_keyed g' ∧ stats_agree g' ∧
  dom (layer_metadata_registry g') = dom (layer_metadata_registry g).
Proof.
  intros Hkeyed Hagree. cbv zeta.
  assert (registry_sound (dom (layer_metadata_registry g)) g) as Hsound by done.
  assert (∀ dom0 g0, registry_sound dom0 g0 →
                     registry_sound dom0 (foldl server_step g0 calls)) as Hrun.
  { clear. intros dom0. induction calls as [| c calls IH]; intros g0 Hs; [done |].
    apply IH, server_step_sound, Hs. }
  by apply Hrun in Hsound.
Qed.

(** X3 at the example registry: an access, a move to NVMe, a submission
    and an access to a layer that is not registered. *)
Lemma access_stats_follow_registry_example :
  let g := example_globals hardware_summary_initial [] in
  let calls :=
    [ CallUpdateAccessStats 7 100;
      CallSetLocation 7 "nvme" (Some "/mnt/nvme/7.bin") None;
      CallTransferLayer {| req_layer_id := 7; req_destination_device := "cpu";
                           req_priority := 3 |} 120;
      CallUpdateAccessStats 9 130 ] in
  registry_keyed g ∧ stats_agree g ∧
  (registry_keyed (foldl server_step g calls) ∧
   stats_agree (foldl server_step g calls) ∧
   dom (layer_metadata_registry (foldl server_step g calls)) =
     dom (layer_metadata_registry g)) ∧
  LayerMetadata.count <$> layer_access_stats (foldl server_step g calls) !! 7 = Some 1.
Proof.
  cbv zeta.
  assert (registry_keyed (example_globals hardware_summary_initial [])) as Hkeyed.
  { intros key m Hm. simpl in Hm.
    apply lookup_singleton_Some in Hm as [<- <-]. reflexivity. }
  assert (stats_agree (example_globals hardware_summary_initial [])) as Hagree.
  { intros key st Hst. simpl in Hst. by rewrite lookup_empty in Hst. }
  split; [exact Hkeyed |]. split; [exact Hagree |].
  split; [| reflexivity].
  exact (access_stats_follow_registry
           (example_globals hardware_summary_initial [])
           [ CallUpdateAccessStats 7 100;
             CallSetLocation 7 "nvme" (Some "/mnt/nvme/7.bin") None;
             CallTransferLayer {| req_layer_id := 7; req_destination_device := "cpu";
                                  req_priority := 3 |} 120;
             CallUpdateAccessStats 9 130 ] Hkeyed Hagree).
Defined.

End more_registry.

(** ** The transfer queue *)

Section more_queue.
Import TransferRequest.

(** X4.  [__lt__] is a strict weak order: no request is below itself, of
    two requests at most one is below the other, being below is
    transitive, and two requests are incomparable exactly when they have
    the same priority and the same timestamp. *)
Theorem __lt___strict_weak_order (a b c : t) :
  __lt__ a a = false ∧
  __lt__ a b && __lt__ b a = false ∧
  implb (__lt__ a b && __lt__ b c) (__lt__ a c) = true ∧
  negb (__lt__ a b) && negb (__lt__ b a) =
    (priority a =? priority b) && (timestamp a =? timestamp b).
Proof.
  unfold __lt__.
  generalize (priority a) (priority b) (priority c)
             (timestamp a) (timestamp b) (timestamp c).
  intros pa pb pc ta tb tc.
  split_and!.
  - rewrite Z.eqb_refl. apply Z.ltb_irrefl.
  - destruct (Z.eqb_spec pa pb), (Z.eqb_spec pb pa),
             (Z.ltb_spec ta tb), (Z.ltb_spec tb ta),
             (Z.ltb_spec pa pb), (Z.ltb_spec pb pa); simpl; first [done | lia].
  - destruct (Z.eqb_spec pa pb), (Z.eqb_spec pb pc), (Z.eqb_spec pa pc),
             (Z.ltb_spec ta tb), (Z.ltb_spec tb tc), (Z.ltb_spec ta tc),
             (Z.ltb_spec pa pb), (Z.ltb_spec pb pc), (Z.ltb_spec pa pc);
      simpl; first [done | lia].
  - destruct (Z.eqb_spec pa pb), (Z.eqb_spec pb pa), (Z.eqb_spec ta tb),
             (Z.ltb_spec ta tb), (Z.ltb_spec tb ta),
             (Z.ltb_spec pa pb), (Z.ltb_spec pb pa); simpl; first [done | lia].
Qed.

(** X5.  Whatever [put_nowait] and [get_nowait] calls came before, a
    [get_nowait] that returns a request takes exactly that request out of
    the queue, and no request left in the queue compares below it. *)
Theorem get_nowait_returns_least (ops : list queue_op) (x : t) (q' : list t) :
  get_nowait __lt__ (foldl queue_step [] ops) = Some (x, q') →
  foldl queue_step [] ops ≡ₚ x :: q' ∧
  ∀ y, y ∈ q' → __lt__ y x = false.
Proof.
  intros Hget. destruct (get_nowait_least ops x q' Hget) as [Hperm Hleast].
  split; [done |]. intros y Hy. by apply __lt___false, Hleast.
Qed.

(** X5 at three puts with a get in between: the priority-1 request leaves
    first although it came second, then the priority-2 one. *)
Lemma get_nowait_returns_least_example :
  let r1 := __init__ 1 "cpu" "gpu" 4 None None 10 in
  let r2 := __init__ 2 "cpu" "gpu" 1 None None 11 in
  let r3 := __init__ 3 "cpu" "gpu" 2 None None 12 in
  let ops := [Put r1; Put r2; Get; Put r3] in
  get_nowait __lt__ (foldl queue_step [] ops) =
    Some (r3, [r1]) ∧
  (foldl queue_step [] ops ≡ₚ r3 :: [r1] ∧
   ∀ y, y ∈ [r1] → __lt__ y r3 = false).
Proof.
  cbv zeta.
  assert (get_nowait __lt__
            (foldl queue_step []
               [Put (__init__ 1 "cpu" "gpu" 4 None None 10);
                Put (__init__ 2 "cpu" "gpu" 1 None None 11); Get;
                Put (__init__ 3 "cpu" "gpu" 2 None None 12)]) =
          Some (__init__ 3 "cpu" "gpu" 2 None None 12,
                [__init__ 1 "cpu" "gpu" 4 None None 10])) as Hget by reflexivity.
  split; [exact Hget |].
  exact (get_nowait_returns_least _ _ _ Hget).
Defined.

(** X6.  Whatever their timestamps, equal ones included, requests put into
    the empty queue and then all taken out come out as the same requests,
    each exactly as often as it was put in, and none comes out before a
    request that compares below it. *)
Theorem dequeue_all_is_sorted_permutation (reqs : list t) :
  dequeue_all reqs ≡ₚ reqs ∧
  length (dequeue_all reqs) = length reqs ∧
  StronglySorted (λ a b, __lt__ b a = false) (dequeue_all reqs).
Proof.
  destruct (dequeue_all_sorted reqs) as [Hperm Hsorted].
  split; [done |]. split; [by rewrite Hperm |].
  eapply StronglySorted_weaken; [| done].
  intros a b. by rewrite __lt___false.
Qed.

End more_queue.

(** ** Runs of submissions *)

Section more_endpoint.

Lemma submit_run_cons s rest g :
  submit_run (s :: rest) g =
  ((api_transfer_layer s.1 s.2 g).1 ::
     (submit_run rest (api_transfer_layer s.1 s.2 g).2).1,
   (submit_run rest (api_transfer_layer s.1 s.2 g).2).2).
Proof.
  cbn [submit_run]. destruct (api_transfer_layer s.1 s.2 g) as [r g1].
  cbn [fst snd]. by destruct (submit_run rest g1) as [rs g2].
Qed.

(** One submission: the queue grows by one exactly on the 202 answer and
    nothing else changes. *)
Lemma api_transfer_layer_queue_length req_api now g :
  length (layer_transfer_queue (api_transfer_layer req_api now g).2) =
    (length (layer_transfer_queue g) +
     (if is_queued (api_transfer_layer req_api now g).1 then 1 else 0))%nat ∧
  (length (layer_transfer_queue (api_transfer_layer req_api now g).2) ≤
     length (layer_transfer_queue g) `max` layer_transfer_queue_maxsize)%nat.
Proof.
  destruct (api_transfer_layer_cases req_api now g)
    as [(_ & d & ->) | [(_ & _ & ->) | [(_ & _ & _ & ->) | (m & _ & _ & Hroom & ->)]]];
    simpl; try lia.
  rewrite heappush_length. lia.
Qed.

(** X7.  A run of submissions answers every one of them, lengthens the
    queue by exactly the number of 202 answers, never beyond 200 entries
    (or its length at the start, were that larger), and changes neither the
    registry, the hardware summary, the access statistics nor the locks. *)
Theorem submit_run_accounting (subs : list (TransferRequestAPI * Z)) (g : Globals) :
  let rs := (submit_run subs g).1 in
  let g' := (submit_run subs g).2 in
  length rs = length subs ∧
  length (layer_transfer_queue g') =
    (length (layer_transfer_queue g) +
     length (filter (λ r, is_queued r = true) rs))%nat ∧
  (length (layer_transfer_queue g') ≤
     length (layer_transfer_queue g) `max` layer_transfer_queue_maxsize)%nat ∧
  layer_metadata_registry g' = layer_metadata_registry g ∧
  hardware_summary g' = hardware_summary g ∧
  layer_access_stats g' = layer_access_stats g ∧
  layer_locks g' = layer_locks g.
Proof.
  cbv zeta. revert g. induction subs as [| s rest IH]; intros g.
  - simpl. split_and!; try done; lia.
  - rewrite submit_run_cons. cbn [fst snd].
    destruct (IH (api_transfer_layer s.1 s.2 g).2)
      as (Hlen & Hgrow & Hbound & Hreg & Hhw & Hstats & Hlocks).
    destruct (api_transfer_layer_frame s.1 s.2 g) as (Hreg1 & Hhw1 & Hstats1 & Hlocks1).
    destruct (api_transfer_layer_queue_length s.1 s.2 g) as [Hgrow1 Hbound1].
    split_and!.
    + simpl. by rewrite Hlen.
    + rewrite Hgrow, Hgrow1, filter_cons.
      destruct (is_queued (api_transfer_layer s.1 s.2 g).1) eqn:Hq.
      * rewrite decide_True by done. simpl. lia.
      * rewrite decide_False by done. lia.
    + lia.
    + congruence.
    + congruence.
    + congruence.
    + congruence.
Qed.

Lemma transfer_obj_of_well_queued g req_api now meta :
  layer_metadata_registry g !! req_layer_id req_api = Some meta →
  has_valid_prefix (req_destination_device req_api) = true →
  well_queued g (transfer_obj_of meta req_api now).
Proof.
  intros Hmeta Hprefix. unfold well_queued, transfer_obj_of. simpl.
  split_and!; try done. by exists (req_layer_id req_api), meta.
Qed.

Lemma api_transfer_layer_well_queued req_api now g :
  Forall (well_queued g) (layer_transfer_queue g) →
  Forall (well_queued g) (layer_transfer_queue (api_transfer_layer req_api now g).2).
Proof.
  intros Hq.
  destruct (api_transfer_layer_cases req_api now g)
    as [(_ & d & ->) | [(_ & _ & ->) | [(_ & _ & _ & ->) | (m & Hm & Hp & _ & ->)]]];
    try done.
  simpl. rewrite heappush_perm. constructor; [| done].
  by apply transfer_obj_of_well_queued.
Qed.

Lemma well_queued_registry g g' t :
  layer_metadata_registry g' = layer_metadata_registry g →
  well_queued g t → well_queued g' t.
Proof. unfold well_queued. by intros ->. Qed.

(** X8.  If every request on the queue is pending, carries no data, no
    callback and no error, names a registered layer with the device that
    layer is on, and has a destination with one of the four prefixes, then
    the same holds of every request on the queue after any run of
    submissions. *)
Theorem submit_run_well_queued (subs : list (TransferRequestAPI * Z)) (g : Globals) :
  Forall (well_queued g) (layer_transfer_queue g) →
  Forall (well_queued g) (layer_transfer_queue (submit_run subs g).2).
Proof.
  revert g. induction subs as [| s rest IH]; intros g Hq; [done |].
  rewrite submit_run_cons. cbn [fst snd].
  destruct (api_transfer_layer_frame s.1 s.2 g) as (Hreg & _).
  pose proof (api_transfer_layer_well_queued s.1 s.2 g Hq) as Hq1.
  eapply Forall_impl.
  - apply IH. eapply Forall_impl; [exact Hq1 |].
    intros t. by apply well_queued_registry.
  - intros t. apply well_queued_registry. by rewrite Hreg.
Qed.

(** X8 at the example registry with an empty queue: of the three example
    submissions one is queued. *)
Lemma submit_run_well_queued_example :
  Forall (well_queued (example_globals hardware_summary_initial []))
    (layer_transfer_queue (example_globals hardware_summary_initial [])) ∧
  Forall (well_queued (example_globals hardware_summary_initial []))
    (layer_transfer_queue
       (submit_run example_submissions
          (example_globals hardware_summary_initial [])).2) ∧
  length (layer_transfer_queue
            (submit_run example_submissions
               (example_globals hardware_summary_initial [])).2) = 1%nat.
Proof.
  assert (Forall (well_queued (example_globals hardware_summary_initial []))
            (layer_transfer_queue (example_globals hardware_summary_initial [])))
    as Hq by constructor.
  split; [exact Hq |]. split; [| reflexivity].
  exact (submit_run_well_queued example_submissions
           (example_globals hardware_summary_initial []) Hq).
Defined.

End more_endpoint.

(** ** The status of a request *)

Section more_transfer_request.
Import TransferRequest.

Lemma errors_given_cons s e rest :
  errors_given ((s, e) :: rest) =
  if truthy e then e :: errors_given rest else errors_given rest.
Proof.
  unfold errors_given. rewrite fmap_cons, filter_cons. cbn [snd].
  destruct (truthy e); [by rewrite decide_True | by rewrite decide_False].
Qed.

(** X9.  After any run of [update_status] calls the request's error
    message is the last non-empty message a call passed, and the message it
    had before when no call passed one: a later call without a message,
    "completed" included, does not clear it.  The layer, the devices, the
    priority, the timestamp, the data and the callback stay as they were. *)
Theorem update_status_seq_error_message (self : t)
    (calls : list (string * option string)) :
  let r := (update_status_seq self calls).1 in
  error_message r = default (error_message self) (last (errors_given calls)) ∧
  layer_id r = layer_id self ∧
  source_device r = source_device self ∧
  destination_device r = destination_device self ∧
  priority r = priority self ∧
  timestamp r = timestamp self ∧
  data_to_transfer r = data_to_transfer self ∧
  callback r = callback self.
Proof.
  cbv zeta. revert self.
  induction calls as [| [s e] rest IH]; intros self; [done |].
  rewrite update_status_seq_cons. cbn [fst snd].
  destruct (IH (update_status self s e).1) as (Herr & Hrest).
  split; [| exact Hrest].
  rewrite Herr, errors_given_cons. cbn [update_status fst error_message].
  destruct (truthy e) eqn:He.
  - rewrite last_cons. by destruct (last (errors_given rest)).
  - done.
Qed.

End more_transfer_request.

(** ** The destination check *)

Section more_prefix.

Lemma prefix_append (p s : string) :
  String.prefix p s = true ↔ ∃ t, s = p +:+ t.
Proof.
  revert s. induction p as [| a p IH]; intros s.
  - split; [by exists s | by destruct s].
  - destruct s as [| b s].
    + split; [done | by intros [t Ht]].
    + change (String.prefix (String a p) (String b s))
        with (if Ascii.ascii_dec a b then String.prefix p s else false).
      destruct (Ascii.ascii_dec a b) as [-> | Hne].
      * rewrite IH. split; intros [t Ht]; exists t.
        -- by rewrite Ht.
        -- by injection Ht.
      * split; [done | intros [t Ht]; by injection Ht].
Qed.

(** X10.  The endpoint's destination check passes exactly the strings
    that begin with "cpu", "gpu", "ramdisk" or "nvme", whatever follows the
    prefix. *)
Theorem has_valid_prefix_iff (destination_device : string) :
  has_valid_prefix destination_device = true ↔
  ∃ p rest, p ∈ valid_prefixes ∧ destination_device = p +:+ rest.
Proof.
  unfold has_valid_prefix. rewrite existsb_exists. split.
  - intros (p & Hp & Hpre). apply prefix_append in Hpre as [rest ->].
    exists p, rest. split; [| done]. by apply list_elem_of_In.
  - intros (p & rest & Hp & ->). exists p. split.
    + by apply list_elem_of_In.
    + apply prefix_append. by exists rest.
Qed.

End more_prefix.

(** ** The configuration *)

Section more_config.

(** X11.  Looking a path up is looking its parts up one after the other:
    the lookup of [ks1 ++ k :: ks2] is the lookup of [k :: ks2] in what the
    lookup of [ks1] gives.  And where a caller first takes a section with
    the default [{}] and then calls [get] on it, the path lookup with the
    key appended gives the same value when [get] returns, and the default
    when [get] fails because the section is no dict. *)
Theorem _cfg_path_get_composes (cfg : JSON) (ks1 : list string) (k : string)
    (ks2 : list string) (v : JSON) :
  _cfg_path_get cfg (ks1 ++ k :: ks2) v =
    _cfg_path_get (_cfg_path_get cfg ks1 JNull) (k :: ks2) v ∧
  _cfg_path_get cfg (ks1 ++ [k]) v =
    default v (dict_get (_cfg_path_get cfg ks1 (JDict ∅)) k v).
Proof.
  split.
  - revert cfg. induction ks1 as [| k1 ks1 IH]; intros cfg; [done |].
    cbn [app _cfg_path_get].
    destruct cfg as [| | | | | d]; try done.
    destruct (d !! k1) as [x |]; [| done].
    apply IH.
  - revert cfg. induction ks1 as [| k1 ks1 IH]; intros cfg.
    + cbn [app _cfg_path_get]. by destruct cfg as [| | | | | d].
    + cbn [app _cfg_path_get].
      destruct cfg as [| | | | | d]; try (simpl; by rewrite lookup_empty).
      destruct (d !! k1) as [x |]; [apply IH |].
      simpl. by rewrite lookup_empty.
Qed.

End more_config.

(** ** The API key check *)

Section more_auth.

Lemma str_ne_json_false s key : str_ne_json s key = false ↔ key = JStr s.
Proof.
  destruct key as [| | | s' | |]; simpl; try (split; [done | congruence]).
  rewrite negb_false_iff, String.eqb_eq. split; congruence.
Qed.

Lemma str_ne_json_true s key : str_ne_json s key = true ↔ key ≠ JStr s.
Proof.
  rewrite <- str_ne_json_false. by destruct (str_ne_json s key).
Qed.

Lemma truthy_Some_true s : truthy (Some s) = true ↔ s ≠ "".
Proof.
  simpl. rewrite negb_true_iff. destruct (String.eqb_spec s ""); split; congruence.
Qed.

Lemma verify_api_key_unfold config provided :
  verify_api_key_dependency_runtime config provided =
  match server_configured_api_key config with
  | None => AuthAttributeError
  | Some key =>
      if json_truthy key
      then if truthy provided
           then match provided with
                | Some s =>
                    if str_ne_json s key
                    then AuthHTTPException 403 "Invalid API Key provided."
                    else AuthTrue
                | None => AuthTrue
                end
           else AuthHTTPException 401 "X-API-Key header is required."
      else AuthTrue
  end.
Proof.
  unfold verify_api_key_dependency_runtime, server_configured_api_key.
  destruct (dict_get config "api" (JDict ∅)) as [api |]; [| done].
  cbn [mbind option_bind].
  destruct (dict_get api "api_key" JNull) as [key |]; [| done].
  destruct (json_truthy key); [| done].
  destruct provided as [s |]; [| done].
  by destruct (truthy (Some s)).
Qed.

Local Ltac break_hyps :=
  repeat match goal with
  | H : ∃ _, _ |- _ => destruct H as [? H]
  | H : _ ∧ _ |- _ => destruct H as [? H]
  | H : _ ∨ _ |- _ => destruct H as [H | H]
  | H : Some _ = Some _ |- _ => injection H as H; try subst
  | H : JStr _ = JStr _ |- _ => injection H as H; try subst
  end.

Local Ltac auth_solve :=
  split_and!;
  (split;
   [ intros ?; try discriminate; eauto 10
   | intros ?; break_hyps; try done; try congruence ]).

(** X12.  What the key check answers.  It fails with [AttributeError]
    exactly when the configuration or its "api" entry is no dict.  It lets
    the request through exactly when the configured key is absent or falsy,
    or the header carries the configured string.  It answers 401 exactly
    when a key is configured and the header is missing or empty, and 403
    exactly when a key is configured and the header is a non-empty string
    other than the configured value. *)
Theorem verify_api_key_outcomes (config : JSON) (api_key_provided : option string) :
  (verify_api_key_dependency_runtime config api_key_provided = AuthAttributeError ↔
   server_configured_api_key config = None) ∧
  (verify_api_key_dependency_runtime config api_key_provided = AuthTrue ↔
   ∃ key, server_configured_api_key config = Some key ∧
          (json_truthy key = false ∨
           ∃ s, api_key_provided = Some s ∧ key = JStr s)) ∧
  (verify_api_key_dependency_runtime config api_key_provided =
     AuthHTTPException 401 "X-API-Key header is required." ↔
   ∃ key, server_configured_api_key config = Some key ∧
          json_truthy key = true ∧ truthy api_key_provided = false) ∧
  (verify_api_key_dependency_runtime config api_key_provided =
     AuthHTTPException 403 "Invalid API Key provided." ↔
   ∃ key s, server_configured_api_key config = Some key ∧
            json_truthy key = true ∧
            api_key_provided = Some s ∧ s ≠ "" ∧ key ≠ JStr s).
Proof.
  rewrite verify_api_key_unfold.
  destruct (server_configured_api_key config) as [key |].
  2: { auth_solve. }
  destruct (json_truthy key) eqn:Hkey.
  2: { auth_solve. }
  destruct api_key_provided as [s |].
  2: { simpl. auth_solve. }
  destruct (truthy (Some s)) eqn:Hs.
  - apply truthy_Some_true in Hs as Hne.
    destruct (str_ne_json s key) eqn:Hcmp.
    + apply str_ne_json_true in Hcmp. auth_solve.
    + apply str_ne_json_false in Hcmp. auth_solve.
  - assert (s = "") as ->.
    { destruct (decide (s = "")) as [| Hne]; [done |].
      apply truthy_Some_true in Hne. congruence. }
    auth_solve.
Qed.


End more_auth.

(** ** Hardware detection: what a successful run leaves *)

Section more_gpu_detection.

Lemma mapM_Raise_Ok {A B} (f : A → Raise B) (l : list A) : ∀ us,
  mapM f l = Ok us → Forall2 (λ x u, f x = Ok u) l us.
Proof.
  induction l as [| x l IH]; intros us.
  - intros [= <-]. constructor.
  - cbn [mapM]. destruct (f x) as [u | e] eqn:Hx; [| done].
    cbn [mbind Raise_bind].
    destruct (mapM f l) as [us' | e]; [| done].
    intros [= <-]. constructor; [done | by apply IH].
Qed.

Lemma usable_vram_for_gpu_b_nonneg total reserved pct v :
  usable_vram_for_gpu_b total reserved pct = Ok v → 0 ≤ v.
Proof.
  unfold usable_vram_for_gpu_b. intros H.
  destruct (py_mul reserved (PyInt 1024)) as [r1 |]; [| done].
  cbn [mbind Raise_bind] in H.
  destruct (py_mul r1 (PyInt 1024)) as [r |]; [| done].
  cbn [mbind Raise_bind] in H.
  destruct (py_sub (PyInt total) r) as [d |]; [| done].
  cbn [mbind Raise_bind] in H.
  destruct (py_truediv_float pct 100) as [f |]; [| done].
  cbn [mbind Raise_bind] in H.
  destruct (py_mul d (PyFloat f)) as [p |]; [| done].
  cbn [mbind Raise_bind] in H.
  destruct (py_int p) as [x |]; [| done].
  cbn [mbind Raise_bind] in H.
  injection H as <-. lia.
Qed.

Lemma sum_list_Z_nonneg (xs : list Z) :
  Forall (λ x, 0 ≤ x) xs → 0 ≤ sum_list_Z xs.
Proof.
  induction 1 as [| x xs Hx _ IH]; [done |].
  unfold sum_list_Z in *. simpl. lia.
Qed.

(** X14.  When the accelerator block of detection returns, the summary
    carries the availability probe and the device count (0 without CUDA);
    the device list is the list from before with one entry per device
    appended, numbered 0, 1, ... in order; no entry has a negative planning
    memory; and the total is the sum over the entries this run appended,
    and is not negative either. *)
Theorem detect_gpu_success_shape (gpu_cfg : GpuCfg) (cuda_is_available : bool)
    (cuda_device_count : nat) (get_device_properties : nat → DeviceProperties)
    (old s : GpuSummary) :
  detect_all_hardware_gpu gpu_cfg cuda_is_available cuda_device_count
    get_device_properties old = Ok s →
  gpu_available s = cuda_is_available ∧
  gpu_count s = (if cuda_is_available then cuda_device_count else 0%nat) ∧
  ∃ new,
    devices s = devices old ++ new ∧
    dev_id <$> new = seq 0 (gpu_count s) ∧
    Forall (λ d, 0 ≤ usable_memory_bytes_planning d) new ∧
    total_usable_vram_bytes_planning s =
      Some (sum_list_Z (usable_memory_bytes_planning <$> new)) ∧
    0 ≤ sum_list_Z (usable_memory_bytes_planning <$> new).
Proof.
  unfold detect_all_hardware_gpu. destruct cuda_is_available.
  - rewrite gpu_loop_spec.
    destruct (mapM (usable_of gpu_cfg get_device_properties) (seq 0 cuda_device_count))
      as [us |] eqn:Hus; [| done].
    cbn [mbind Raise_bind]. intros [= <-]. cbn.
    apply mapM_Raise_Ok in Hus.
    pose proof (Forall2_length _ _ _ Hus) as Hlen.
    assert (Forall (λ u, 0 ≤ u) us) as Hnonneg.
    { clear Hlen. induction Hus as [| i u is' us' Hiu _ IH]; constructor; [| done].
      by apply usable_vram_for_gpu_b_nonneg in Hiu. }
    assert (usable_memory_bytes_planning <$>
              zip_with (λ i u, device_entry i (get_device_properties i) u)
                (seq 0 cuda_device_count) us = us) as Hbudgets.
    { apply fmap_zip_with_r; [done | lia]. }
    split; [done |]. split; [done |].
    eexists. split; [done |]. rewrite Hbudgets.
    split_and!.
    + apply fmap_zip_with_l; [done | lia].
    + apply (Forall_fmap usable_memory_bytes_planning (λ u, 0 ≤ u)).
      by rewrite Hbudgets.
    + done.
    + by apply sum_list_Z_nonneg.
  - cbn [mbind Raise_bind]. intros [= <-]. cbn.
    split; [done |]. split; [done |].
    exists []. rewrite app_nil_r. by split_and!.
Qed.

(** X14 at the example machine, on a summary that already lists a device:
    detection appends the entries 0 and 1 behind it. *)
Lemma detect_gpu_success_shape_example :
  let old :=
    {| gpu_available := true; gpu_count := 1;
       devices := [device_entry 0 (example_props 0) 7489349222];
       total_usable_vram_bytes_planning := Some 7489349222 |} in
  ∃ s,
    detect_all_hardware_gpu example_gpu_cfg true 2 example_props old = Ok s ∧
    length (devices s) = 3%nat ∧
    gpu_count s = 2%nat ∧
    total_usable_vram_bytes_planning s = Some 7489349278 ∧
    ∃ new,
      devices s = devices old ++ new ∧
      dev_id <$> new = seq 0 (gpu_count s) ∧
      Forall (λ d, 0 ≤ usable_memory_bytes_planning d) new ∧
      total_usable_vram_bytes_planning s =
        Some (sum_list_Z (usable_memory_bytes_planning <$> new)) ∧
      0 ≤ sum_list_Z (usable_memory_bytes_planning <$> new).
Proof.
  cbv zeta.
  destruct (detect_all_hardware_gpu example_gpu_cfg true 2 example_props
              {| gpu_available := true; gpu_count := 1;
                 devices := [device_entry 0 (example_props 0) 7489349222];
                 total_usable_vram_bytes_planning := Some 7489349222 |})
    as [s | e] eqn:Hrun; [| vm_compute in Hrun; discriminate Hrun].
  exists s.
  pose proof (detect_gpu_success_shape _ _ _ _ _ _ Hrun) as (_ & _ & Hnew).
  vm_compute in Hrun. injection Hrun as <-.
  split; [reflexivity |]. split; [reflexivity |]. split; [reflexivity |].
  split; [reflexivity |]. exact Hnew.
Defined.

End more_gpu_detection.

(** ** Locks *)

Section more_locks.

Lemma get_lock_is_Some self locks :
  is_Some (get_lock self locks) ↔ LayerMetadata.id self ∈ locks.
Proof.
  unfold get_lock. by case_bool_decide; split.
Qed.

Lemma server_step_locks_sound locks0 dom0 g c :
  locks_sound locks0 dom0 g → locks_sound locks0 dom0 (server_step g c).
Proof.
  intros (Hcover & Hlocks & Hdom).
  destruct c as [key now | key d p gid | req_api now]; simpl.
  - destruct (update_access_stats_in key now g) as [g' |] eqn:Hcall; [| done].
    apply update_access_stats_in_Some in Hcall as (self & Hself & ->).
    split_and!; simpl.
    + intros k m. simpl. destruct (decide (k = key)) as [-> | Hne].
      * rewrite lookup_insert_eq. intros [= <-]. by apply (Hcover key self).
      * rewrite lookup_insert_ne by done. apply Hcover.
    + done.
    + rewrite dom_insert_L, <- Hdom. apply elem_of_dom_2 in Hself.
      apply subseteq_union_1_L. by apply singleton_subseteq_l.
  - destruct (set_location_in key d p gid g) as [g' |] eqn:Hcall; [| done].
    apply set_location_in_Some in Hcall as (self & Hself & ->).
    split_and!; simpl.
    + intros k m. simpl. destruct (decide (k = key)) as [-> | Hne].
      * rewrite lookup_insert_eq. intros [= <-]. by apply (Hcover key self).
      * rewrite lookup_insert_ne by done. apply Hcover.
    + done.
    + rewrite dom_insert_L, <- Hdom. apply elem_of_dom_2 in Hself.
      apply subseteq_union_1_L. by apply singleton_subseteq_l.
  - destruct (api_transfer_layer_frame req_api now g) as (Hreg & _ & _ & Hl).
    unfold locks_sound, locks_cover. rewrite Hreg, Hl. done.
Qed.

(** X15.  Start from globals in which every registered layer has a lock.
    After any run of [update_access_stats], [set_location] and transfer
    submissions that is still so, the locks are the same, and a further
    [update_access_stats] or [set_location] on a key fails exactly when no
    layer was registered under the key at the start: no call meets a
    missing lock. *)
Theorem locked_layers_calls_succeed (g : Globals) (calls : list server_call)
    (key now : Z) (device_type_str : string) (path_val : option string)
    (gpu_id_val : option Z) :
  locks_cover g →
  let g' := foldl server_step g calls in
  locks_cover g' ∧
  layer_locks g' = layer_locks g ∧
  (is_Some (update_access_stats_in key now g') ↔
   is_Some (layer_metadata_registry g !! key)) ∧
  (is_Some (set_location_in key device_type_str path_val gpu_id_val g') ↔
   is_Some (layer_metadata_registry g !! key)).
Proof.
  intros Hcover. cbv zeta.
  assert (locks_sound (layer_locks g) (dom (layer_metadata_registry g)) g)
    as Hsound by done.
  assert (∀ locks0 dom0 g0, locks_sound locks0 dom0 g0 →
            locks_sound locks0 dom0 (foldl server_step g0 calls)) as Hrun.
  { clear. intros locks0 dom0. induction calls as [| c calls IH]; intros g0 Hs; [done |].
    apply IH, server_step_locks_sound, Hs. }
  apply Hrun in Hsound as (Hcover' & Hlocks' & Hdom').
  split; [done |]. split; [done |].
  rewrite <- (elem_of_dom (layer_metadata_registry g)), <- Hdom', elem_of_dom.
  unfold update_access_stats_in, set_location_in.
  destruct (layer_metadata_registry (foldl server_step g calls) !! key)
    as [self |] eqn:Hself; cbn [mbind option_bind].
  - pose proof (Hcover' key self Hself) as Hin.
    apply get_lock_is_Some in Hin as [l ->]. cbn [mbind option_bind].
    split; (split; intros _; [by eexists |]).
    + destruct (LayerMetadata.update_access_stats self now _). by eexists.
    + by eexists.
  - split; (split; intros [? ?]; done).
Qed.

(** X15 at the example registry, whose layer 7 has a lock. *)
Lemma locked_layers_calls_succeed_example :
  let g := example_globals hardware_summary_initial [] in
  let calls :=
    [ CallSetLocation 7 "gpu" None (Some 0);
      CallTransferLayer {| req_layer_id := 7; req_destination_device := "nvme";
                           req_priority := 2 |} 40;
      CallUpdateAccessStats 7 41 ] in
  locks_cover g ∧
  (locks_cover (foldl server_step g calls) ∧
   layer_locks (foldl server_step g calls) = layer_locks g ∧
   (is_Some (update_access_stats_in 7 50 (foldl server_step g calls)) ↔
    is_Some (layer_metadata_registry g !! 7)) ∧
   (is_Some (set_location_in 7 "cpu" None None (foldl server_step g calls)) ↔
    is_Some (layer_metadata_registry g !! 7))).
Proof.
  cbv zeta.
  assert (locks_cover (example_globals hardware_summary_initial [])) as Hcover.
  { intros key m Hm. simpl in Hm.
    apply lookup_singleton_Some in Hm as [<- <-]. simpl.
    by apply elem_of_singleton. }
  split; [exact Hcover |].
  exact (locked_layers_calls_succeed
           (example_globals hardware_summary_initial [])
           [ CallSetLocation 7 "gpu" None (Some 0);
             CallTransferLayer {| req_layer_id := 7; req_destination_device := "nvme";
                                  req_priority := 2 |} 40;
             CallUpdateAccessStats 7 41 ]
           7 50 "cpu" None None Hcover).
Defined.

End more_locks.

(** ** The loaded model *)

Section more_loaded_model.
Import LoadedModelContext.

(** X16.  A context's execution order is its layer ids in ascending
    order: the same ids, each as often as it was given, so as many as
    [get_num_layers] counts.  [get_layer_metadata] answers from the
    registry for exactly the ids of the execution order and [None] for
    every other id. *)
Theorem layer_execution_order_sorted (model_name_or_id resolved_local_path : string)
    (hf_config_obj hf_tokenizer_obj : option string)
    (model_specific_layer_ids : list Z) (target_primary_compute_device : string)
    (hf_api_auth_token : option string) (layer_id_val : Z)
    (registry : gmap Z LayerMetadata.t) :
  let ctx := __init__ model_name_or_id resolved_local_path hf_config_obj
               hf_tokenizer_obj model_specific_layer_ids
               target_primary_compute_device hf_api_auth_token in
  layer_execution_order ctx ≡ₚ model_specific_layer_ids ∧
  StronglySorted Z.le (layer_execution_order ctx) ∧
  length (layer_execution_order ctx) = get_num_layers ctx ∧
  get_layer_metadata ctx layer_id_val registry =
    (if decide (layer_id_val ∈ layer_execution_order ctx)
     then registry !! layer_id_val else None).
Proof.
  cbv zeta. cbn [layer_execution_order __init__].
  pose proof (merge_sort_Permutation Z.le model_specific_layer_ids) as Hperm.
  split_and!.
  - done.
  - apply StronglySorted_merge_sort; apply _.
  - unfold get_num_layers. cbn [layer_ids]. by rewrite Hperm.
  - unfold get_layer_metadata. cbn [layer_ids].
    case_bool_decide as Hin; case_decide as Hin'; try done.
    + by rewrite Hperm in Hin'.
    + by rewrite Hperm in Hin'.
Qed.

End more_loaded_model.
